(** * Verification of the ABC classification, the fuzzy name harmonizer and
    the cleaning, field selection and currency conversion helpers of
    [utils.py] (procurement analytics dashboard).

    Modelling conventions.
    - Floats are modelled as rationals [Q]; the inputs used below are exact.
    - A missing value (pandas NaN / None) is [None]: a spend [option Q],
      a group key [option string].
    - Strings are ASCII [string]s; Python's [str.lower], [str.strip] and the
      regex class [\s] are restricted to ASCII. *)

From Stdlib Require Import List String Ascii Bool Arith Lia QArith.
From Stdlib Require Import Permutation Sorted Lqa DecimalNat.
Import ListNotations.
Open Scope nat_scope.

(** ** Generic list helpers used by both functions *)

(** One insertion step of a stable insertion sort: [x] goes after every
    element [y] with [le y x]. *)
Fixpoint insert_by {X} (le : X -> X -> bool) (x : X) (l : list X) : list X :=
  match l with
  | [] => [x]
  | y :: l' => if le y x then y :: insert_by le x l' else x :: l
  end.

(** Stable sort: elements are inserted in their input order. *)
Definition sort_by {X} (le : X -> X -> bool) (l : list X) : list X :=
  fold_left (fun acc x => insert_by le x acc) l [].

(** First occurrences, in first-seen order; [seen] holds the values kept
    so far. *)
Fixpoint dedup_aux {X} (eqb : X -> X -> bool) (seen l : list X) : list X :=
  match l with
  | [] => []
  | x :: l' =>
      if existsb (fun y => eqb y x) seen then dedup_aux eqb seen l'
      else x :: dedup_aux eqb (x :: seen) l'
  end.

Definition dedup_by {X} (eqb : X -> X -> bool) (l : list X) : list X :=
  dedup_aux eqb [] l.

(** Sum of a list of rationals ([Series.sum]). *)
Definition Qsum (l : list Q) : Q := fold_right Qplus 0%Q l.

(** ** ABC classification ([abc_classification], utils.py l.191-211) *)
Module ABC.

Inductive abc_class := A | B | C.

(** [None] is a missing (NaN) key. *)
Abbreviation group_key := (option string).
(** [None] is a missing (NaN) spend. *)
Abbreviation row := (group_key * option Q)%type.

(** Key equality of [groupby(..., dropna=False)]: missing keys form one group. *)
Definition group_eqb (k1 k2 : group_key) : bool :=
  match k1, k2 with
  | None, None => true
  | Some a, Some b => String.eqb a b
  | _, _ => false
  end.

(** Key equality of a Python dict lookup [cls.get(x)]: NaN is not equal to
    NaN (and the boxed NaN of a row is not the object stored in [cls]), so a
    missing key is never found. *)
Definition lookup_eqb (k1 k2 : group_key) : bool :=
  match k1, k2 with
  | Some a, Some b => String.eqb a b
  | _, _ => false
  end.

(** Group order of [groupby(sort=True)]: keys ascending, the NaN group last. *)
Definition key_leb (k1 k2 : group_key) : bool :=
  match k1, k2 with
  | Some a, Some b => match String.compare a b with Gt => false | _ => true end
  | Some _, None => true
  | None, None => true
  | None, Some _ => false
  end.

(** [sum] of a group skips NaN; an all-NaN group sums to 0. *)
Definition spend_or_0 (s : option Q) : Q :=
  match s with Some q => q | None => 0%Q end.

Definition group_keys (rows : list row) : list group_key :=
  sort_by key_leb (dedup_by group_eqb (map fst rows)).

Definition group_sum (rows : list row) (k : group_key) : Q :=
  Qsum (map (fun r => spend_or_0 (snd r)) (filter (fun r => group_eqb (fst r) k) rows)).

(** Descending order of [sort_values(ascending=False)]; ties keep the
    groupby order (pandas' tie order is implementation-defined). *)
Definition desc_leb (p1 p2 : group_key * Q) : bool := Qle_bool (snd p2) (snd p1).

(** [agg = df.groupby(group_col, dropna=False)[spend_col].sum().sort_values(ascending=False)] *)
Definition agg (rows : list row) : list (group_key * Q) :=
  sort_by desc_leb (map (fun k => (k, group_sum rows k)) (group_keys rows)).

(** [total = agg.sum()] *)
Definition total (rows : list row) : Q := Qsum (map snd (agg rows)).

(** [agg.cumsum()] *)
Fixpoint cumsum (acc : Q) (l : list (group_key * Q)) : list (group_key * Q) :=
  match l with
  | [] => []
  | (k, s) :: l' => (k, acc + s)%Q :: cumsum (acc + s)%Q l'
  end.

(** [cum = agg.cumsum() / total] *)
Definition cum (rows : list row) : list (group_key * Q) :=
  map (fun p => (fst p, snd p / total rows)%Q) (cumsum 0%Q (agg rows)).

(** Body of the loop over [cum.items()]. *)
Definition classify (a_cut b_cut v : Q) : abc_class :=
  if Qle_bool v a_cut then A
  else if Qle_bool v b_cut then B
  else C.

(** The dict [cls]. *)
Definition cls_table (rows : list row) (a_cut b_cut : Q) : list (group_key * abc_class) :=
  map (fun p => (fst p, classify a_cut b_cut (snd p))) (cum rows).

(** [cls.get(x)] *)
Fixpoint cls_lookup (cls : list (group_key * abc_class)) (x : group_key) : option abc_class :=
  match cls with
  | [] => None
  | (k, c) :: cls' => if lookup_eqb k x then Some c else cls_lookup cls' x
  end.

(** [df[group_col].map(lambda x: cls.get(x, "C")).fillna("C")]; the lambda
    never yields NaN, so [fillna] changes nothing. *)
Definition abc_classification (rows : list row) (a_cut b_cut : Q) : list abc_class :=
  if Qeq_bool (total rows) 0 then map (fun _ => C) rows
  else
    let cls := cls_table rows a_cut b_cut in
    map (fun r => match cls_lookup cls (fst r) with Some c => c | None => C end) rows.

(** The order A before B before C. *)
Definition abc_rank (c : abc_class) : nat :=
  match c with A => 0 | B => 1 | C => 2 end.

(** The non-missing spend values of the input, in row order. *)
Definition nonnull_spends (rows : list row) : list Q :=
  flat_map (fun r => match snd r with Some q => [q] | None => [] end) rows.

(** Spec, concrete scenario 2. *)
Definition scenario2_rows : list row :=
  [(Some "g1"%string, Some 100%Q); (Some "g2"%string, Some 50%Q);
   (Some "g3"%string, Some 30%Q); (Some "g4"%string, Some 20%Q)].

(** A positive group, an all-missing group and a negative group. *)
Definition null_spend_rows : list row :=
  [(Some "g1"%string, Some 5%Q); (Some "g2"%string, None); (Some "g3"%string, Some (-3)%Q)].

End ABC.

(** ** Fuzzy name harmonization ([harmonize_names], utils.py l.30-120) *)
Module Harmonize.

(** *** [normalize_text] (utils.py l.30-35) *)

(** Python's [\s] and [str.isspace] on ASCII: \t \n \v \f \r, \x1c-\x1f and
    space. *)
Definition is_space (c : ascii) : bool :=
  let n := nat_of_ascii c in ((9 <=? n) && (n <=? 13)) || ((28 <=? n) && (n <=? 32)).

(** [str.lower] on ASCII. *)
Definition lower (c : ascii) : ascii :=
  let n := nat_of_ascii c in
  if (65 <=? n) && (n <=? 90) then ascii_of_nat (n + 32) else c.

(** The class [a-z0-9]. *)
Definition is_lower_alnum (c : ascii) : bool :=
  let n := nat_of_ascii c in ((97 <=? n) && (n <=? 122)) || ((48 <=? n) && (n <=? 57)).

Fixpoint lstrip (l : list ascii) : list ascii :=
  match l with
  | c :: l' => if is_space c then lstrip l' else l
  | [] => []
  end.

Definition strip_list (l : list ascii) : list ascii := rev (lstrip (rev (lstrip l))).

(** [str.strip()] *)
Definition strip (s : string) : string :=
  string_of_list_ascii (strip_list (list_ascii_of_string s)).

(** [re.sub(r"[^a-z0-9\s]", " ", x)] *)
Definition sub_non_alnum (l : list ascii) : list ascii :=
  map (fun c => if is_lower_alnum c || is_space c then c else " "%char) l.

(** [re.sub(r"\s+", " ", x)]; [in_ws] tells whether the previous character
    belonged to a whitespace run. *)
Fixpoint collapse_ws (in_ws : bool) (l : list ascii) : list ascii :=
  match l with
  | [] => []
  | c :: l' =>
      if is_space c then (if in_ws then collapse_ws true l' else " "%char :: collapse_ws true l')
      else c :: collapse_ws false l'
  end.

(** [normalize_text] applied to a string (the series is already
    [fillna("").astype(str)], so [pd.isna(x)] is false). *)
Definition normalize_text (x : string) : string :=
  let l := map lower (strip_list (list_ascii_of_string x)) in
  string_of_list_ascii (strip_list (collapse_ws false (sub_non_alnum l))).

(** *** [difflib.SequenceMatcher(None, a, b).ratio()] *)
Section Matcher.
Variables a b : list ascii.

Definition char_at (l : list ascii) (i : nat) : ascii := nth i l " "%char.

Fixpoint indices_from (c : ascii) (l : list ascii) (j : nat) : list nat :=
  match l with
  | [] => []
  | d :: l' => if Ascii.eqb c d then j :: indices_from c l' (S j) else indices_from c l' (S j)
  end.

(** [autojunk]: for [len(b) >= 200], an element occurring more than
    [len(b) // 100 + 1] times is popular and removed from [b2j]. *)
Definition popular (c : ascii) : bool :=
  let n := List.length b in
  (200 <=? n) && (n / 100 + 1 <? count_occ ascii_dec b c).

(** [b2j.get(c, [])]: the positions of [c] in [b], ascending. *)
Definition b2j (c : ascii) : list nat := if popular c then [] else indices_from c b 0.

(** [isjunk] is [None], so [bjunk] is empty. *)
Definition isbjunk (c : ascii) : bool := false.

Fixpoint j2len_get (m : list (nat * nat)) (j : nat) : nat :=
  match m with
  | [] => 0
  | (j', k) :: m' => if j' =? j then k else j2len_get m' j
  end.

(** The loop [for j in b2j.get(a[i], nothing)] for one [i]; [best] is
    [(besti, bestj, bestsize)]. *)
Fixpoint scan_js (i blo bhi : nat) (j2len : list (nat * nat)) (js : list nat)
    (newj2len : list (nat * nat)) (best : nat * nat * nat) : list (nat * nat) * (nat * nat * nat) :=
  match js with
  | [] => (newj2len, best)
  | j :: js' =>
      if j <? blo then scan_js i blo bhi j2len js' newj2len best
      else if bhi <=? j then (newj2len, best)
      else
        let k := (if j =? 0 then 0 else j2len_get j2len (j - 1)) + 1 in
        let '(_, _, bestsize) := best in
        let best' := if bestsize <? k then (i + 1 - k, j + 1 - k, k) else best in
        scan_js i blo bhi j2len js' ((j, k) :: newj2len) best'
  end.

(** [for i in range(alo, ahi)], [n] iterations left. *)
Fixpoint loop_i (blo bhi i n : nat) (j2len : list (nat * nat)) (best : nat * nat * nat) : nat * nat * nat :=
  match n with
  | 0 => best
  | S n' =>
      let '(newj2len, best') := scan_js i blo bhi j2len (b2j (char_at a i)) [] best in
      loop_i blo bhi (S i) n' newj2len best'
  end.

(** The four extension loops; [fuel] bounds their iterations. *)
Fixpoint extend_back (junk : bool) (alo blo fuel : nat) (best : nat * nat * nat) : nat * nat * nat :=
  match fuel with
  | 0 => best
  | S f =>
      let '(i, j, k) := best in
      if (alo <? i) && (blo <? j) && Bool.eqb (isbjunk (char_at b (j - 1))) junk
         && Ascii.eqb (char_at a (i - 1)) (char_at b (j - 1))
      then extend_back junk alo blo f (i - 1, j - 1, k + 1) else best
  end.

Fixpoint extend_fwd (junk : bool) (ahi bhi fuel : nat) (best : nat * nat * nat) : nat * nat * nat :=
  match fuel with
  | 0 => best
  | S f =>
      let '(i, j, k) := best in
      if (i + k <? ahi) && (j + k <? bhi) && Bool.eqb (isbjunk (char_at b (j + k))) junk
         && Ascii.eqb (char_at a (i + k)) (char_at b (j + k))
      then extend_fwd junk ahi bhi f (i, j, k + 1) else best
  end.

Definition find_longest_match (alo ahi blo bhi : nat) : nat * nat * nat :=
  let best := loop_i blo bhi alo (ahi - alo) [] (alo, blo, 0) in
  let best := extend_back false alo blo ahi best in
  let best := extend_fwd false ahi bhi ahi best in
  let best := extend_back true alo blo ahi best in
  extend_fwd true ahi bhi ahi best.

(** [get_matching_blocks]: [queue] is the stack of [(alo, ahi, blo, bhi)]
    (head = last element of the Python list). The final sort and merge of
    adjacent blocks keep the total size, which is all [ratio] reads. *)
Fixpoint blocks_loop (fuel : nat) (queue : list (nat * nat * nat * nat))
    (acc : list (nat * nat * nat)) : list (nat * nat * nat) :=
  match fuel with
  | 0 => acc
  | S f =>
      match queue with
      | [] => acc
      | (alo, ahi, blo, bhi) :: q =>
          let '(i, j, k) := find_longest_match alo ahi blo bhi in
          if k =? 0 then blocks_loop f q acc
          else
            let q1 := if (alo <? i) && (blo <? j) then (alo, i, blo, j) :: q else q in
            let q2 := if (i + k <? ahi) && (j + k <? bhi) then (i + k, ahi, j + k, bhi) :: q1 else q1 in
            blocks_loop f q2 ((i, j, k) :: acc)
      end
  end.

Definition matching_blocks : list (nat * nat * nat) :=
  let la := List.length a in
  let lb := List.length b in
  blocks_loop (2 * (la + lb) + 1) [(0, la, 0, lb)] [].

(** [ratio = 2.0 * matches / (len(a) + len(b))], 1.0 for two empty strings. *)
Definition ratio : Q :=
  let matches := fold_right (fun '(_, _, k) s => k + s) 0 matching_blocks in
  let len := List.length a + List.length b in
  if len =? 0 then 1%Q
  else (inject_Z (Z.of_nat (2 * matches)) / inject_Z (Z.of_nat len))%Q.

End Matcher.

(** [similarity] (utils.py l.64-65) *)
Definition similarity (x y : string) : Q :=
  ratio (list_ascii_of_string x) (list_ascii_of_string y).

(** *** [harmonize_names] (utils.py l.67-120) *)

(** [series.fillna("").astype(str)] *)
Definition s_raw_of (series : list (option string)) : list string :=
  map (fun o => match o with Some s => s | None => EmptyString end) series.

Definition count_str (l : list string) (x : string) : nat :=
  List.length (filter (String.eqb x) l).

(** [Series.value_counts()]: distinct values with their counts, by count
    descending; ties in first-seen order (pandas leaves the tie order to its
    sort). *)
Definition value_counts (l : list string) : list (string * nat) :=
  sort_by (fun p q : string * nat => snd q <=? snd p)
    (map (fun x => (x, count_str l x)) (dedup_by String.eqb l)).

(** [l[:m]] for a Python int [m]. *)
Definition py_prefix {X} (l : list X) (m : Z) : list X :=
  if (0 <=? m)%Z then firstn (Z.to_nat m) l
  else firstn (List.length l - Z.to_nat (- m)) l.

(** [uniques], after the [max_uniques] truncation (l.75-77). *)
Definition retained_uniques (s_norm : list string) (max_uniques : Z) : list string :=
  let uniques := map fst (value_counts s_norm) in
  if (max_uniques <? Z.of_nat (List.length uniques))%Z then py_prefix uniques max_uniques
  else uniques.

(** [x in d] *)
Definition is_some {X} (o : option X) : bool := match o with Some _ => true | None => false end.

(** Python dict [d.get(x)] on an association list, newest entry first. *)
Fixpoint str_lookup (m : list (string * string)) (x : string) : option string :=
  match m with
  | [] => None
  | (k, v) :: m' => if String.eqb k x then Some v else str_lookup m' x
  end.

Definition str_get (m : list (string * string)) (x dflt : string) : string :=
  match str_lookup m x with Some v => v | None => dflt end.

Section Clustering.
Variables (threshold : Q) (min_len : Z).

(** The test of l.91. *)
Definition matches (u v : string) : bool :=
  (min_len <=? Z.of_nat (String.length u))%Z && (min_len <=? Z.of_nat (String.length v))%Z
  && Qle_bool threshold (similarity u v).

(** The inner loop [for v in uniques] (l.88-93) for the seed [u]. *)
Fixpoint inner (u : string) (vs : list string) (assigned : list (string * string))
    (cluster : list string) : list (string * string) * list string :=
  match vs with
  | [] => (assigned, cluster)
  | v :: vs' =>
      if is_some (str_lookup assigned v) then inner u vs' assigned cluster
      else if matches u v then inner u vs' ((v, u) :: assigned) (cluster ++ [v])
      else inner u vs' assigned cluster
  end.

(** The outer loop [for u in uniques] (l.83-94); [all] is [uniques]. *)
Fixpoint outer (all us : list string) (assigned : list (string * string))
    (clusters : list (list string)) : list (string * string) * list (list string) :=
  match us with
  | [] => (assigned, clusters)
  | u :: us' =>
      if is_some (str_lookup assigned u) then outer all us' assigned clusters
      else
        let '(assigned', cluster) := inner u all ((u, u) :: assigned) [u] in
        outer all us' assigned' (clusters ++ [cluster])
  end.

Definition clustering (uniques : list string) : list (string * string) * list (list string) :=
  outer uniques uniques [] [].

End Clustering.

(** [max(cluster, key=f)]: the first element with the largest key. *)
Fixpoint max_by (f : string -> nat) (best : string) (l : list string) : string :=
  match l with
  | [] => best
  | x :: l' => if f best <? f x then max_by f x l' else max_by f best l'
  end.

Definition cluster_max (f : string -> nat) (cluster : list string) : string :=
  match cluster with [] => EmptyString | x :: l => max_by f x l end.

(** [cluster_best] (l.97-101); later writes come first. *)
Definition cluster_best_of (freq : string -> nat) (clusters : list (list string)) : list (string * string) :=
  fold_left (fun acc cl => rev (map (fun m => (m, cluster_max freq cl)) cl) ++ acc) clusters [].

(** [x.value_counts().index[0] if len(x) else ""] *)
Definition top_value (l : list string) : string :=
  match value_counts l with (x, _) :: _ => x | [] => EmptyString end.

(** The raw values of the group [canon_norm == c] of [tmp]. *)
Definition group_raws (raws cns : list string) (c : string) : list string :=
  map fst (filter (fun p => String.eqb (snd p) c) (combine raws cns)).

(** [best_raw] (l.106-110). *)
Definition best_raw_of (raws cns : list string) : list (string * string) :=
  map (fun c => (c, top_value (group_raws raws cns c))) (dedup_by String.eqb cns).

(** Lexicographic order on [(canonical, raw)] for [sort_values]. *)
Definition mapping_leb (p q : string * string * string) : bool :=
  let '(r1, _, c1) := p in
  let '(r2, _, c2) := q in
  match String.compare c1 c2 with
  | Lt => true
  | Gt => false
  | Eq => match String.compare r1 r2 with Gt => false | _ => true end
  end.

Definition triple_eqb (p q : string * string * string) : bool :=
  let '(a1, b1, c1) := p in
  let '(a2, b2, c2) := q in
  String.eqb a1 a2 && String.eqb b1 b2 && String.eqb c1 c2.

Record harmonized := {
  canonical : list string;                        (** [canon_final] *)
  mapping : list (string * string * string);      (** [mapping_df]: raw, canon_norm, canonical *)
  changed : list bool                             (** [changed_mask] *)
}.

Definition harmonize_names (series : list (option string)) (threshold : Q) (min_len max_uniques : Z)
    : harmonized :=
  let s_raw := s_raw_of series in
  let s_norm := map normalize_text s_raw in
  let uniques := retained_uniques s_norm max_uniques in
  let freq := count_str s_norm in
  let clusters := snd (clustering threshold min_len uniques) in
  let cluster_best := cluster_best_of freq clusters in
  let canon_norm := map (fun x => str_get cluster_best x x) s_norm in
  let best_raw := best_raw_of s_raw canon_norm in
  let canon_final := map (fun x => str_get best_raw x x) canon_norm in
  let changed_mask := map (fun p => negb (String.eqb (strip (fst p)) (strip (snd p))))
                          (combine canon_final s_raw) in
  let mapping_df := sort_by mapping_leb
                      (dedup_by triple_eqb (combine (combine s_raw canon_norm) canon_final)) in
  {| canonical := canon_final; mapping := mapping_df; changed := changed_mask |}.

(** *** Named intermediate values of [harmonize_names] *)
Section Views.
Variables (series : list (option string)) (threshold : Q) (min_len max_uniques : Z).

Definition h_raws : list string := s_raw_of series.
Definition h_norms : list string := map normalize_text h_raws.
Definition h_uniques : list string := retained_uniques h_norms max_uniques.
Definition h_assigned : list (string * string) := fst (clustering threshold min_len h_uniques).
Definition h_clusters : list (list string) := snd (clustering threshold min_len h_uniques).
Definition h_cluster_best : list (string * string) := cluster_best_of (count_str h_norms) h_clusters.
(** [canon_norm] of a normalized value. *)
Definition h_canon_norm (x : string) : string := str_get h_cluster_best x x.
Definition h_best_raw : list (string * string) := best_raw_of h_raws (map h_canon_norm h_norms).
(** [canon_final] of a [canon_norm] value. *)
Definition h_display (c : string) : string := str_get h_best_raw c c.

End Views.

(** The invariant of the outer clustering loop after the keys [processed]:
    [assigned] and [clusters] hold the same keys, clusters are disjoint,
    every cluster is headed by a processed seed [h] to which [assigned] maps
    all its members, whose other members matched [h], and all keys come from
    [all]. *)
Definition outer_inv (threshold : Q) (min_len : Z) (all processed : list string)
    (assigned : list (string * string)) (clusters : list (list string)) : Prop :=
  (forall x, In x (map fst assigned) <-> In x (List.concat clusters)) /\
  NoDup (List.concat clusters) /\
  (forall cl, In cl clusters -> exists h t, cl = h :: t /\ In h processed /\
     (forall x, In x cl -> str_lookup assigned x = Some h) /\
     (forall x, In x t -> x <> h /\ matches threshold min_len h x = true)) /\
  (forall x, In x (List.concat clusters) -> In x all) /\
  (forall u, In u processed -> In u (map fst assigned)).

(** *** Example inputs *)

(** Concrete scenario 1 of the spec. *)
Definition scenario1_series : list (option string) :=
  map Some ["Acme Corp"; "ACME CORP."; "Acme  Corp"; "Globex"]%string.

(** More distinct values than [max_uniques = 1]. *)
Definition truncation_series : list (option string) :=
  map Some ["aaa"; "aaa"; "aaa"; "aaa"; "ACME"; "ACME"; "Acme"]%string.

Definition truncation_series_small : list (option string) :=
  map Some ["aaa"; "aaa"; "bbb"]%string.

(** A chain aa ~ aab ~ abb at threshold 0.6. *)
Definition chain_series : list (option string) :=
  map Some ["aa"; "aa"; "aa"; "aab"; "aab"; "abb"]%string.

Definition chain_series_small : list (option string) :=
  map Some ["aa"; "aa"; "aab"]%string.

Definition mixed_case_series : list (option string) :=
  map Some ["AA"; "Aa"; "aa"; "aab"; "aab"; "abb"]%string.

Definition loose_series : list (option string) :=
  map Some ["ab"; "ab"; "cd"]%string.

(** A blank (missing) value next to a real one. *)
Definition blank_series : list (option string) :=
  [Some "ab"; Some "ab"; None]%string.

End Harmonize.

(** ** The other functions of [utils.py] *)
Module Utils.
Import Harmonize.

(** *** [clean_amount] (utils.py l.20-23) *)

Definition is_digit (c : ascii) : bool :=
  let n := nat_of_ascii c in (48 <=? n) && (n <=? 57).

(** The class [0-9\.\-]. *)
Definition numeric_char (c : ascii) : bool :=
  is_digit c || Ascii.eqb c "."%char || Ascii.eqb c "-"%char.

(** [astype(str)] of an object column: a missing value (NaN) prints as
    "nan" ([None] prints as "None"; both lose every character below). *)
Definition as_str (o : option string) : string :=
  match o with Some s => s | None => "nan"%string end.

(** [str.replace(r"[,\s]", "", regex=True)] *)
Definition drop_comma_ws (l : list ascii) : list ascii :=
  filter (fun c => negb (Ascii.eqb c ","%char || is_space c)) l.

(** [str.replace(r"[^0-9\.\-]", "", regex=True)] *)
Definition keep_numeric (l : list ascii) : list ascii := filter numeric_char l.

(** The longest prefix of [l] whose characters satisfy [p], and the rest. *)
Fixpoint span (p : ascii -> bool) (l : list ascii) : list ascii * list ascii :=
  match l with
  | c :: l' => if p c then let '(a, r) := span p l' in (c :: a, r) else ([], l)
  | [] => ([], [])
  end.

Definition digit_val (c : ascii) : Z := Z.of_nat (nat_of_ascii c - 48).

(** The value of a string of decimal digits. *)
Definition digits_value (ds : list ascii) : Z :=
  fold_left (fun acc c => acc * 10 + digit_val c)%Z ds 0%Z.

(** [precise_xstrtod] reads at most [max_digits] digits into [number]; every
    further integer digit adds one to the decimal exponent, and further
    fraction digits are skipped. *)
Definition max_digits : nat := 17.

(** The least magnitude that rounds to [HUGE_VAL] (infinity) in binary64:
    2^1024 - 2^970, halfway between [DBL_MAX] and 2^1024. *)
Definition huge_val_bound : Q := inject_Z (2 ^ 1024 - 2 ^ 970).

(** The value [precise_xstrtod] gives an optional sign [neg], integer
    digits [ip] and fraction digits [fp] (at least one digit in all), [None]
    where it reports [ERANGE]: a decimal exponent above 308, or a result equal
    to [HUGE_VAL] or [-HUGE_VAL]. The arithmetic is exact here: the roundings
    of [number * 10. + d] and of the scaling by [e[exponent]] are not
    modelled. *)
Definition xstrtod_value (neg : bool) (ip fp : list ascii) : option Q :=
  let kept_ip := firstn max_digits ip in
  let kept_fp := firstn (max_digits - List.length kept_ip) fp in
  let exponent := (Z.of_nat (List.length ip - max_digits) - Z.of_nat (List.length kept_fp))%Z in
  let d := digits_value (kept_ip ++ kept_fp) in
  if (308 <? exponent)%Z then None
  else
    let number := if (0 <=? exponent)%Z then inject_Z (d * 10 ^ exponent)
                  else Qmake d (Z.to_pos (10 ^ (- exponent))) in
    if Qle_bool huge_val_bound number then None
    else Some (if neg then Qopp number else number).

(** [pd.to_numeric(s, errors="coerce")] on one string (pandas'
    [maybe_convert_numeric]): the empty string is NaN; otherwise [floatify]
    calls [precise_xstrtod], which reads an optional sign, digits, an
    optional '.' followed by digits, with at least one digit in all; the
    whole string must be consumed and no [ERANGE] reported, else [floatify]
    raises [ValueError] and [errors="coerce"] gives NaN. The strings
    [clean_amount] passes hold digits, '.' and '-' only, so the whitespace
    skipping and the exponent part never apply. This is the float value of
    the column ([maybe_convert_numeric] returns [int(s)] instead when every
    value of the column is an integer in the int64/uint64 range). *)
Definition to_numeric (l : list ascii) : option Q :=
  match l with
  | [] => None
  | _ =>
      let '(neg, l1) :=
        match l with
        | c :: r => if Ascii.eqb c "-"%char then (true, r)
                    else if Ascii.eqb c "+"%char then (false, r) else (false, l)
        | [] => (false, [])
        end in
      let '(ip, l2) := span is_digit l1 in
      let '(fp, l3) :=
        match l2 with
        | c :: r => if Ascii.eqb c "."%char then span is_digit r else ([], l2)
        | [] => ([], [])
        end in
      match ip ++ fp, l3 with
      | _ :: _, [] => xstrtod_value neg ip fp
      | _, _ => None
      end
  end.

(** One value of [clean_amount]. *)
Definition clean_amount_one (o : option string) : option Q :=
  to_numeric (keep_numeric (drop_comma_ws (list_ascii_of_string (as_str o)))).

Definition clean_amount (series : list (option string)) : list (option Q) :=
  map clean_amount_one series.

(** The characters of a text that [clean_amount] keeps. *)
Definition numeric_chars (s : string) : list ascii := filter numeric_char (list_ascii_of_string s).

(** The decimal digits of an unsigned decimal number (statements only). *)
Fixpoint uint_digits (u : Decimal.uint) : list ascii :=
  match u with
  | Decimal.Nil => []
  | Decimal.D0 u => "0"%char :: uint_digits u
  | Decimal.D1 u => "1"%char :: uint_digits u
  | Decimal.D2 u => "2"%char :: uint_digits u
  | Decimal.D3 u => "3"%char :: uint_digits u
  | Decimal.D4 u => "4"%char :: uint_digits u
  | Decimal.D5 u => "5"%char :: uint_digits u
  | Decimal.D6 u => "6"%char :: uint_digits u
  | Decimal.D7 u => "7"%char :: uint_digits u
  | Decimal.D8 u => "8"%char :: uint_digits u
  | Decimal.D9 u => "9"%char :: uint_digits u
  end.

(** The decimal writing of a natural number, e.g. "1234". *)
Definition decimal_digits (n : nat) : list ascii := uint_digits (Nat.to_uint n).

(** *** [normalize_description] (utils.py l.38-41) *)

Definition normalize_description_one (o : option string) : string :=
  let s := match o with Some s => s | None => EmptyString end in
  string_of_list_ascii (strip_list (collapse_ws false (list_ascii_of_string s))).

Definition normalize_description (series : list (option string)) : list string :=
  map normalize_description_one series.

(** Whitespace of a text is single spaces only, never two in a row, and
    none at either end (statements only). *)
Definition single_spaced (l : list ascii) : Prop :=
  (forall c, In c l -> is_space c = true -> c = " "%char) /\
  (forall p q, l <> p ++ " "%char :: " "%char :: q) /\
  (forall c l', l = c :: l' -> is_space c = false) /\
  (forall c l', l = l' ++ [c] -> is_space c = false).

(** *** [is_excluded_field], [harmonizable_fields] (utils.py l.47-58) *)

(** The regex items used by [EXCLUDE_PATTERNS]: [\b], a literal
    character, and [\s*]. *)
Inductive re_item := Bound | Chr (c : ascii) | SpStar.

(** [\w] on ASCII: letters, digits and the underscore. *)
Definition is_word (c : ascii) : bool :=
  let n := nat_of_ascii c in
  ((48 <=? n) && (n <=? 57)) || ((65 <=? n) && (n <=? 90)) || ((97 <=? n) && (n <=? 122))
  || (n =? 95).

Definition word_at (o : option ascii) : bool :=
  match o with Some c => is_word c | None => false end.

(** Whether the items match a prefix of [s]; [prev] is the character
    before [s] ([None] at the start of the string). *)
Fixpoint match_at (its : list re_item) (prev : option ascii) (s : list ascii) : bool :=
  match its with
  | [] => true
  | Bound :: its' =>
      negb (Bool.eqb (word_at prev) (word_at (hd_error s))) && match_at its' prev s
  | Chr c :: its' =>
      match s with
      | d :: s' => Ascii.eqb c d && match_at its' (Some d) s'
      | [] => false
      end
  | SpStar :: its' =>
      (fix star (prev : option ascii) (s : list ascii) : bool :=
         match_at its' prev s ||
         match s with
         | d :: s' => is_space d && star (Some d) s'
         | [] => false
         end) prev s
  end.

(** [re.search]: a match starting at some position. *)
Fixpoint search_from (its : list re_item) (prev : option ascii) (s : list ascii) : bool :=
  match_at its prev s ||
  match s with
  | d :: s' => search_from its (Some d) s'
  | [] => false
  end.

Definition re_search (its : list re_item) (s : string) : bool :=
  search_from its None (list_ascii_of_string s).

Definition lit (w : string) : list re_item := map Chr (list_ascii_of_string w).

(** [r"\bw\b"] *)
Definition word_pat (w : string) : list re_item := Bound :: lit w ++ [Bound].

(** [r"\bw\s*id\b"] *)
Definition id_pat (w : string) : list re_item := Bound :: lit w ++ SpStar :: lit "id" ++ [Bound].

Definition EXCLUDE_PATTERNS : list (list re_item) :=
  [word_pat "id"; word_pat "code"; word_pat "sku"; word_pat "hsn"; word_pat "sac";
   id_pat "material"; id_pat "item"; id_pat "vendor"; id_pat "supplier";
   word_pat "gl"; word_pat "account"; word_pat "asset"; word_pat "serial"]%string.

Definition is_excluded_field (col : string) : bool :=
  let c := normalize_text col in
  existsb (fun p => re_search p c) EXCLUDE_PATTERNS.

Definition harmonizable_fields (cols : list string) : list string :=
  filter (fun c => negb (is_excluded_field c)) cols.

(** The words an excluded column name contains (statements only). *)
Definition excluded_words : list string :=
  ["id"; "code"; "sku"; "hsn"; "sac"; "materialid"; "itemid"; "vendorid"; "supplierid";
   "gl"; "account"; "asset"; "serial"]%string.

(** [w] occurs in [l] as a whole word: at the start or after a space, and
    at the end or before a space (statements only). *)
Definition whole_word_in (w l : list ascii) : Prop :=
  exists p q, l = p ++ w ++ q /\
    (p = [] \/ exists p', p = p' ++ [" "%char]) /\
    (q = [] \/ exists q', q = " "%char :: q').

(** *** [frankfurter_rate] and [convert_currency_df] (utils.py l.126-185) *)

(** [str.upper] on ASCII. *)
Definition upper (c : ascii) : ascii :=
  let n := nat_of_ascii c in
  if (97 <=? n) && (n <=? 122) then ascii_of_nat (n - 32) else c.

(** [str(x).upper().strip()] *)
Definition upper_strip (s : string) : string :=
  string_of_list_ascii (strip_list (map upper (list_ascii_of_string s))).

(** A value of the [dates] column: [None] (no date column), the float NaN
    that [dt.strftime] gives for an unparsed date, or a date string. *)
Inductive date_val := DNone | DNaN | DIso (s : string).

(** [if date_iso:] *)
Definition date_truthy (d : date_val) : bool :=
  match d with DNone => false | DNaN => true | DIso s => negb (String.eqb s "") end.

(** The date inside the f-string. *)
Definition date_text (d : date_val) : string :=
  match d with DNone => "None" | DNaN => "nan" | DIso s => s end%string.

(** Equality of dates as [drop_duplicates] and the dict [rate_map] see it:
    the NaN of [strftime] is the one [np.nan] object, so it equals itself. *)
Definition date_eqb (d1 d2 : date_val) : bool :=
  match d1, d2 with
  | DNone, DNone | DNaN, DNaN => true
  | DIso a, DIso b => String.eqb a b
  | _, _ => false
  end.

Definition pair_eqb (p q : string * date_val) : bool :=
  String.eqb (fst p) (fst q) && date_eqb (snd p) (snd q).

Section Network.
(** The network: [api_rate url to_ccy] is [float(data.get("rates", {}).get(to_ccy))]
    for the JSON [data] answered at [url], or [None] when the rate is absent
    or the request raises (the [except] branch). [st.cache_data] returns the
    first answer again for the same arguments, so a function models it. *)
Variable api_rate : string -> string -> option Q.

Definition frankfurter_url (from_ccy to_ccy : string) (d : date_val) : string :=
  if date_truthy d then
    "https://api.frankfurter.dev/v1/" ++ date_text d ++ "?base=" ++ from_ccy ++ "&symbols=" ++ to_ccy
  else "https://api.frankfurter.dev/v1/latest?base=" ++ from_ccy ++ "&symbols=" ++ to_ccy.

Definition frankfurter_rate (from_ccy to_ccy : string) (d : date_val) : option Q :=
  let f := upper_strip from_ccy in
  let t := upper_strip to_ccy in
  api_rate (frankfurter_url f t d) t.

(** The loop filling [rate_map]; a later entry is found first. *)
Definition build_rate_map (tgt : string) (pairs : list (string * date_val))
    : list ((string * date_val) * option Q) :=
  fold_left (fun m p => (p, if String.eqb (fst p) tgt then Some 1%Q
                            else frankfurter_rate (fst p) tgt (snd p)) :: m) pairs [].

(** [rate_map.get((s, d), None)] *)
Fixpoint rate_get (m : list ((string * date_val) * option Q)) (k : string * date_val) : option Q :=
  match m with
  | [] => None
  | (k', v) :: m' => if pair_eqb k' k then v else rate_get m' k
  end.

Record fx_row := {
  ccy_source : string;          (** [_ccy_source] *)
  ccy_target : string;          (** [_ccy_target] *)
  fx_rate_used : option Q;      (** [_fx_rate_used] *)
  fx_missing : bool;            (** [_fx_missing] *)
  spend_converted : option Q    (** [_spend_converted] *)
}.

(** [convert_currency_df]: the amount and currency columns, the target, and
    the formatted dates when [date_col] is given and present ([None]
    otherwise; date parsing is not modelled). *)
Definition convert_currency_df (amounts ccys : list (option string)) (target_ccy : string)
    (dates : option (list date_val)) : list fx_row :=
  let srcs := map (fun o => upper_strip (match o with Some c => c | None => target_ccy end)) ccys in
  let tgt := upper_strip target_ccy in
  let amt := clean_amount amounts in
  let ds := match dates with Some l => l | None => List.repeat DNone (List.length ccys) end in
  let pairs := dedup_by pair_eqb (combine srcs ds) in
  let rate_map := build_rate_map tgt pairs in
  let rates := map (rate_get rate_map) (combine srcs ds) in
  map (fun '(s, a, r) =>
         {| ccy_source := s; ccy_target := tgt; fx_rate_used := r;
            fx_missing := match r with Some _ => false | None => true end;
            spend_converted := match a, r with Some x, Some y => Some (x * y)%Q | _, _ => None end |})
      (combine (combine srcs amt) rates).

End Network.

(** *** Helpers of the statements and proofs *)

(** The number that an optional '-' ([neg]), integer digits [ip] and
    fraction digits [fp] denote. *)
Definition num_value (neg : bool) (ip fp : list ascii) : Q :=
  let v := Qmake (digits_value (ip ++ fp)) (Z.to_pos (10 ^ Z.of_nat (List.length fp))) in
  if neg then Qopp v else v.

(** [to_numeric] once the sign is read (the [let] chain of its body). *)
Definition after_sign (neg : bool) (l1 : list ascii) : option Q :=
  let '(ip, l2) := span is_digit l1 in
  let '(fp, l3) :=
    match l2 with
    | c :: r => if Ascii.eqb c "."%char then span is_digit r else ([], l2)
    | [] => ([], [])
    end in
  match ip ++ fp, l3 with
  | _ :: _, [] => xstrtod_value neg ip fp
  | _, _ => None
  end.

(** The character before a position, after reading [p] from [prev]. *)
Fixpoint after (prev : option ascii) (p : list ascii) : option ascii :=
  match p with [] => prev | c :: p' => after (Some c) p' end.

(** The characters [normalize_text] leaves: [a-z0-9] and the space. *)
Definition norm_char (c : ascii) : Prop := is_lower_alnum c = true \/ c = " "%char.

(** Literal words made of word characters. *)
Definition word_lit (w : list ascii) : Prop := w <> [] /\ forall c, In c w -> is_word c = true.

(** A rate service that answers 83 for every rate to INR and nothing else
    (for the examples). *)
Definition api_fixed (url to_ccy : string) : option Q :=
  if String.eqb to_ccy "INR" then Some (83 # 1)%Q else None.

End Utils.

(** ** Facts about the list helpers *)
Section ListFacts.
Context {X : Type}.

Lemma insert_by_perm (le : X -> X -> bool) x l :
  Permutation (insert_by le x l) (x :: l).
Proof.
  induction l as [|y l IH]; simpl; [auto|].
  destruct (le y x); [|auto].
  eapply perm_trans; [apply perm_skip, IH | apply perm_swap].
Qed.

Lemma sort_by_perm (le : X -> X -> bool) l : Permutation (sort_by le l) l.
Proof.
  unfold sort_by.
  enough (H : forall acc, Permutation (fold_left (fun acc x => insert_by le x acc) l acc) (l ++ acc))
    by (rewrite <- (app_nil_r l) at 2; apply H).
  induction l as [|x l IH]; intros acc; simpl; [auto|].
  rewrite IH, insert_by_perm. symmetry. apply Permutation_middle.
Qed.

Section Sorting.
Variable R : X -> X -> Prop.

Lemma insert_by_sorted (le : X -> X -> bool)
  (Hle : forall a b, le a b = true -> R a b)
  (Hgt : forall a b, le a b = false -> R b a) x l :
  Sorted R l -> Sorted R (insert_by le x l).
Proof.
  induction l as [|y l IH]; intros Hs; simpl; [auto|].
  destruct (le y x) eqn:E.
  - apply Sorted_inv in Hs as [Hs Hhd]. constructor; [now apply IH|].
    destruct l as [|z l]; simpl; [constructor; now apply Hle|].
    destruct (le z x); constructor; [now apply HdRel_inv in Hhd | now apply Hle].
  - constructor; [assumption | constructor; now apply Hgt].
Qed.

Lemma sort_by_sorted (le : X -> X -> bool)
  (Hle : forall a b, le a b = true -> R a b)
  (Hgt : forall a b, le a b = false -> R b a) l :
  Sorted R (sort_by le l).
Proof.
  unfold sort_by.
  enough (H : forall acc, Sorted R acc ->
                Sorted R (fold_left (fun acc x => insert_by le x acc) l acc)) by (apply H; constructor).
  induction l as [|x l IH]; intros acc Hs; simpl; [assumption|].
  apply IH, insert_by_sorted; assumption.
Qed.

Lemma StronglySorted_nth l i j x y :
  StronglySorted R l -> i < j -> nth_error l i = Some x -> nth_error l j = Some y -> R x y.
Proof.
  revert i j. induction l as [|z l IH]; intros i j Hs Hij Hi Hj; [destruct i; discriminate|].
  apply StronglySorted_inv in Hs as [Hs Hall].
  destruct i as [|i], j as [|j]; try lia; simpl in Hi, Hj.
  - injection Hi as <-. rewrite Forall_forall in Hall. apply Hall, nth_error_In with j, Hj.
  - apply (IH i j); auto; lia.
Qed.

End Sorting.

Variable eqb : X -> X -> bool.
Hypothesis eqb_iff : forall a b, eqb a b = true <-> a = b.

Lemma dedup_aux_In seen l x :
  In x (dedup_aux eqb seen l) <-> In x l /\ ~ In x seen.
Proof.
  revert seen. induction l as [|a l IH]; intros seen; simpl; [tauto|].
  destruct (existsb (fun y => eqb y a) seen) eqn:E.
  - apply existsb_exists in E as [y [Hy Hya]]. apply eqb_iff in Hya. subst y.
    rewrite IH. split; [tauto|]. intros [[<-|H] Hn]; tauto.
  - simpl. rewrite IH. simpl.
    assert (Hna : ~ In a seen).
    { intros Hin. assert (existsb (fun y => eqb y a) seen = true) as E'
        by (apply existsb_exists; exists a; split; [exact Hin | now apply eqb_iff]).
      congruence. }
    split.
    + intros [<-|[Hx Hn]]; [tauto|]. split; [tauto|]. intros Hs. apply Hn. now right.
    + intros [[<-|Hx] Hn]; [now left|].
      destruct (eqb a x) eqn:Eax; [apply eqb_iff in Eax; now left|].
      right. split; [assumption|]. intros [Hax|Hs]; [|tauto].
      subst. assert (eqb x x = true) by now apply eqb_iff. congruence.
Qed.

Lemma dedup_aux_NoDup seen l : NoDup (dedup_aux eqb seen l).
Proof.
  revert seen. induction l as [|a l IH]; intros seen; simpl; [constructor|].
  destruct (existsb (fun y => eqb y a) seen); [apply IH|].
  constructor; [|apply IH].
  rewrite dedup_aux_In. simpl. tauto.
Qed.

Lemma dedup_by_In l x : In x (dedup_by eqb l) <-> In x l.
Proof. unfold dedup_by. rewrite dedup_aux_In. simpl. tauto. Qed.

Lemma dedup_by_NoDup l : NoDup (dedup_by eqb l).
Proof. apply dedup_aux_NoDup. Qed.

Lemma NoDup_app_disjoint (l1 l2 : list X) x :
  NoDup (l1 ++ l2) -> In x l1 -> ~ In x l2.
Proof.
  induction l1 as [|y l1 IH]; simpl; [tauto|]. intros Hnd [<-|Hx] Hin.
  - inversion Hnd as [|? ? Hy _]. apply Hy. apply in_or_app. now right.
  - inversion Hnd; subst. exact (IH H2 Hx Hin).
Qed.

End ListFacts.

Lemma Qsum_app l1 l2 : (Qsum (l1 ++ l2) == Qsum l1 + Qsum l2)%Q.
Proof.
  induction l1 as [|q l1 IH]; simpl; [ring|]. rewrite IH. ring.
Qed.

Lemma Qsum_perm l1 l2 : Permutation l1 l2 -> (Qsum l1 == Qsum l2)%Q.
Proof.
  induction 1; simpl; try reflexivity.
  - now rewrite IHPermutation.
  - ring.
  - now rewrite IHPermutation1, IHPermutation2.
Qed.

(** ** Proofs about [abc_classification] *)
Module ABCFacts.
Import ABC.

Ltac qle_facts :=
  repeat match goal with
  | H : Qle_bool _ _ = true |- _ => apply Qle_bool_iff in H
  | H : Qle_bool _ _ = false |- _ =>
      rewrite <- not_true_iff_false, Qle_bool_iff in H
  end.

Lemma group_eqb_iff k1 k2 : group_eqb k1 k2 = true <-> k1 = k2.
Proof.
  destruct k1, k2; simpl; try (split; congruence).
  rewrite String.eqb_eq. split; congruence.
Qed.

Lemma group_keys_NoDup rows : NoDup (group_keys rows).
Proof.
  eapply Permutation_NoDup; [symmetry; apply sort_by_perm|].
  apply (dedup_by_NoDup group_eqb group_eqb_iff).
Qed.

Lemma group_keys_In rows k : In k (group_keys rows) <-> In k (map fst rows).
Proof.
  unfold group_keys. split; intros H.
  - apply (Permutation_in _ (sort_by_perm _ _)) in H.
    now rewrite (dedup_by_In group_eqb group_eqb_iff) in H.
  - apply (Permutation_in _ (Permutation_sym (sort_by_perm _ _))).
    now rewrite (dedup_by_In group_eqb group_eqb_iff).
Qed.

Lemma agg_perm rows :
  Permutation (agg rows) (map (fun k => (k, group_sum rows k)) (group_keys rows)).
Proof. apply sort_by_perm. Qed.

Lemma agg_keys rows : Permutation (map fst (agg rows)) (group_keys rows).
Proof.
  eapply perm_trans; [apply Permutation_map, agg_perm|].
  rewrite map_map. simpl. rewrite map_id. reflexivity.
Qed.

Lemma agg_In rows k t :
  In (k, t) (agg rows) <-> t = group_sum rows k /\ In k (group_keys rows).
Proof.
  split; intros H.
  - apply (Permutation_in _ (agg_perm rows)), in_map_iff in H as [k' [Heq Hk]].
    injection Heq as <- <-. auto.
  - destruct H as [-> Hk]. apply (Permutation_in _ (Permutation_sym (agg_perm rows))).
    apply in_map_iff. eauto.
Qed.

Lemma cumsum_keys acc l : map fst (cumsum acc l) = map fst l.
Proof.
  revert acc. induction l as [|[k s] l IH]; intros acc; simpl; [reflexivity|].
  now rewrite IH.
Qed.

Lemma cum_keys rows : map fst (cum rows) = map fst (agg rows).
Proof. unfold cum. rewrite map_map. simpl. apply cumsum_keys. Qed.

Lemma cls_table_keys rows a b : map fst (cls_table rows a b) = map fst (cum rows).
Proof. unfold cls_table. rewrite map_map. reflexivity. Qed.

Lemma cls_table_In rows a b k c :
  In (k, c) (cls_table rows a b) -> exists v, In (k, v) (cum rows) /\ c = classify a b v.
Proof.
  unfold cls_table. intros H. apply in_map_iff in H as [[k' v] [Heq Hin]].
  simpl in Heq. injection Heq as <- <-. eauto.
Qed.

Lemma cls_lookup_None cls : cls_lookup cls None = None.
Proof. induction cls as [|[[k|] c] cls IH]; simpl; auto. Qed.

Lemma cls_lookup_Some cls k c : cls_lookup cls k = Some c -> In (k, c) cls.
Proof.
  induction cls as [|[k' c'] cls IH]; simpl; [discriminate|].
  destruct (lookup_eqb k' k) eqn:E; intros H; [|auto].
  injection H as <-. left. destruct k', k; simpl in E; try discriminate.
  apply String.eqb_eq in E. now subst.
Qed.

Lemma cls_lookup_found cls k : In (Some k) (map fst cls) -> exists c, cls_lookup cls (Some k) = Some c.
Proof.
  induction cls as [|[k' c'] cls IH]; simpl; [tauto|].
  destruct (lookup_eqb k' (Some k)) eqn:E; [eauto|].
  intros [->|H]; [|auto]. simpl in E. rewrite String.eqb_refl in E. discriminate.
Qed.

Lemma classify_spec a b v :
  (a < b)%Q ->
  ((v <= a)%Q -> classify a b v = A) /\
  ((a < v)%Q -> (v <= b)%Q -> classify a b v = B) /\
  ((b < v)%Q -> classify a b v = C).
Proof.
  intros Hab. unfold classify.
  destruct (Qle_bool v a) eqn:E1, (Qle_bool v b) eqn:E2; qle_facts;
    repeat split; intros; try reflexivity; exfalso; lra.
Qed.

Lemma classify_mono a b v w :
  (v <= w)%Q -> abc_rank (classify a b v) <= abc_rank (classify a b w).
Proof.
  intros Hvw. unfold classify.
  destruct (Qle_bool w a) eqn:E1; qle_facts.
  - assert (Qle_bool v a = true) as -> by (apply Qle_bool_iff; lra). simpl. lia.
  - destruct (Qle_bool w b) eqn:E2; qle_facts.
    + destruct (Qle_bool v a); simpl; [lia|].
      assert (Qle_bool v b = true) as -> by (apply Qle_bool_iff; lra). simpl. lia.
    + destruct (Qle_bool v a), (Qle_bool v b); simpl; lia.
Qed.

Lemma Qsum_map_ext {Y} (f g : Y -> Q) l :
  (forall y, f y == g y)%Q -> (Qsum (map f l) == Qsum (map g l))%Q.
Proof.
  intros H. induction l as [|y l IH]; simpl; [reflexivity|]. now rewrite H, IH.
Qed.

Lemma Qsum_map_zero {Y} (l : list Y) : (Qsum (map (fun _ => 0) l) == 0)%Q.
Proof.
  induction l as [|y l IH]; [reflexivity|].
  change (0 + Qsum (map (fun _ : Y => 0) l) == 0)%Q. rewrite IH. reflexivity.
Qed.

Lemma Qsum_map_plus {Y} (f g : Y -> Q) l :
  (Qsum (map (fun y => f y + g y) l) == Qsum (map f l) + Qsum (map g l))%Q.
Proof. induction l as [|y l IH]; simpl; [ring|]. rewrite IH. ring. Qed.

Lemma Qsum_indicator_absent x v K :
  ~ In x K -> (Qsum (map (fun k => if group_eqb x k then v else 0) K) == 0)%Q.
Proof.
  induction K as [|k K IH]; simpl; intros Hn; [reflexivity|].
  destruct (group_eqb x k) eqn:E.
  - apply group_eqb_iff in E. subst. tauto.
  - rewrite IH by tauto. ring.
Qed.

Lemma Qsum_indicator x v K :
  NoDup K -> In x K -> (Qsum (map (fun k => if group_eqb x k then v else 0) K) == v)%Q.
Proof.
  induction K as [|k K IH]; simpl; intros Hnd Hin; [tauto|].
  apply NoDup_cons_iff in Hnd as [Hk Hnd].
  destruct (group_eqb x k) eqn:E.
  - apply group_eqb_iff in E. subst. rewrite Qsum_indicator_absent by assumption. ring.
  - destruct Hin as [->|Hin].
    + assert (group_eqb x x = true) by now apply group_eqb_iff. congruence.
    + rewrite IH by assumption. ring.
Qed.

Lemma group_sum_cons r rows k :
  (group_sum (r :: rows) k ==
   (if group_eqb (fst r) k then spend_or_0 (snd r) else 0) + group_sum rows k)%Q.
Proof.
  unfold group_sum. simpl. destruct (group_eqb (fst r) k); simpl; [reflexivity|ring].
Qed.

Lemma sum_of_groups rows K :
  NoDup K -> (forall r, In r rows -> In (fst r) K) ->
  (Qsum (map (group_sum rows) K) == Qsum (map (fun r => spend_or_0 (snd r)) rows))%Q.
Proof.
  intros Hnd. induction rows as [|r rows IH]; intros Hcov.
  - rewrite (Qsum_map_ext _ (fun _ => 0%Q)) by (intros; reflexivity).
    rewrite Qsum_map_zero. reflexivity.
  - rewrite (Qsum_map_ext _ _ _ (group_sum_cons r rows)), Qsum_map_plus.
    rewrite Qsum_indicator by (auto; apply Hcov; now left).
    rewrite IH by (intros; apply Hcov; now right). simpl. reflexivity.
Qed.

Lemma Qsum_spend_or_0 rows :
  (Qsum (map (fun r => spend_or_0 (snd r)) rows) == Qsum (nonnull_spends rows))%Q.
Proof.
  induction rows as [|[k [q|]] rows IH]; simpl; [reflexivity| |]; rewrite IH; [reflexivity|ring].
Qed.

Lemma nonnull_spends_nil rows :
  Forall (fun r : row => snd r = None) rows -> nonnull_spends rows = [].
Proof.
  induction 1 as [|r rows Hr _ IH]; [reflexivity|].
  unfold nonnull_spends in *. simpl. now rewrite Hr.
Qed.

Lemma total_nonnull rows : (total rows == Qsum (nonnull_spends rows))%Q.
Proof.
  unfold total. rewrite <- Qsum_spend_or_0.
  rewrite (Qsum_perm _ _ (Permutation_map snd (agg_perm rows))).
  rewrite map_map. simpl. apply sum_of_groups; [apply group_keys_NoDup|].
  intros r Hr. apply group_keys_In, in_map, Hr.
Qed.

Lemma agg_sorted rows :
  StronglySorted (fun p q : group_key * Q => (snd q <= snd p)%Q) (agg rows).
Proof.
  apply Sorted_StronglySorted; [intros x y z; simpl; intros; lra|].
  apply sort_by_sorted; unfold desc_leb; intros p q H; qle_facts; lra.
Qed.

(** With a non-zero total, a row with a non-missing key gets the class that
    the loop over [cum] computes from the cuts as passed, whatever they are. *)
Lemma abc_row_class_as_given rows a_cut b_cut i k s :
  ~ (total rows == 0)%Q -> nth_error rows i = Some (Some k, s) ->
  exists v, In (Some k, v) (cum rows) /\
    nth_error (abc_classification rows a_cut b_cut) i = Some (classify a_cut b_cut v).
Proof.
  intros Htot Hi.
  assert (Hq : Qeq_bool (total rows) 0 = false)
    by (apply not_true_iff_false; rewrite Qeq_bool_iff; exact Htot).
  unfold abc_classification. rewrite Hq. cbv iota zeta beta. rewrite nth_error_map, Hi. simpl.
  assert (Hk : In (Some k) (map fst (cls_table rows a_cut b_cut))).
  { rewrite cls_table_keys, cum_keys.
    apply (Permutation_in _ (Permutation_sym (agg_keys rows))), group_keys_In.
    exact (in_map fst _ _ (nth_error_In _ _ Hi)). }
  destruct (cls_lookup_found _ _ Hk) as [c Hc]. rewrite Hc.
  apply cls_lookup_Some, cls_table_In in Hc as [v [Hv ->]].
  exists v. split; [exact Hv|reflexivity].
Qed.

(** With [b_cut <= a_cut] no share is both above [a_cut] and at most
    [b_cut], so no row is labelled B. *)
Lemma abc_no_B_swapped rows a_cut b_cut :
  (b_cut <= a_cut)%Q -> ~ In B (abc_classification rows a_cut b_cut).
Proof.
  intros Hba. unfold abc_classification.
  destruct (Qeq_bool (total rows) 0).
  - intros H. apply in_map_iff in H as [_ [H _]]. discriminate.
  - intros H. apply in_map_iff in H as [r [H _]].
    destruct (cls_lookup _ (fst r)) as [c|] eqn:E; [|discriminate]. subst c.
    apply cls_lookup_Some, cls_table_In in E as [v [_ Hv]].
    unfold classify in Hv.
    destruct (Qle_bool v a_cut) eqn:E1; [discriminate|].
    destruct (Qle_bool v b_cut) eqn:E2; [|discriminate].
    apply Qle_bool_iff in E2. apply not_true_iff_false in E1. apply E1, Qle_bool_iff. lra.
Qed.

(** Claim C1, the rows with a non-missing key. With non-zero total and cuts
    [0 < a_cut < b_cut <= 1], the cumulative shares [cum] have one entry per
    group; every row with a non-missing group key gets the class of its
    group's cumulative share (share <= a_cut: A; a_cut < share <= b_cut: B;
    share > b_cut: C); a row with a missing group key gets C whatever class
    its group has in [cls]; and spec scenario 2 gives A, A, B, C. *)
Theorem abc_rows_inherit_group_class rows a_cut b_cut :
  (0 < a_cut)%Q -> (a_cut < b_cut)%Q -> (b_cut <= 1)%Q -> ~ (total rows == 0)%Q ->
  NoDup (map fst (cum rows)) /\
  (forall i k s, nth_error rows i = Some (Some k, s) ->
     exists v c, In (Some k, v) (cum rows) /\
       nth_error (abc_classification rows a_cut b_cut) i = Some c /\
       ((v <= a_cut)%Q -> c = A) /\
       ((a_cut < v)%Q -> (v <= b_cut)%Q -> c = B) /\
       ((b_cut < v)%Q -> c = C)) /\
  (forall i s, nth_error rows i = Some (None, s) ->
     nth_error (abc_classification rows a_cut b_cut) i = Some C) /\
  abc_classification scenario2_rows (4#5) (19#20) = [A; A; B; C].
Proof.
  intros Ha Hab Hb Htot.
  assert (Hq : Qeq_bool (total rows) 0 = false)
    by (apply not_true_iff_false; rewrite Qeq_bool_iff; exact Htot).
  split; [|split; [|split]].
  - rewrite cum_keys. eapply Permutation_NoDup; [symmetry; apply agg_keys|].
    apply group_keys_NoDup.
  - intros i k s Hi. unfold abc_classification. rewrite Hq. cbv iota zeta beta. rewrite nth_error_map, Hi. simpl.
    assert (Hk : In (Some k) (map fst (cls_table rows a_cut b_cut))).
    { rewrite cls_table_keys, cum_keys.
      apply (Permutation_in _ (Permutation_sym (agg_keys rows))), group_keys_In.
      exact (in_map fst _ _ (nth_error_In _ _ Hi)). }
    destruct (cls_lookup_found _ _ Hk) as [c Hc]. rewrite Hc.
    apply cls_lookup_Some, cls_table_In in Hc as [v [Hv ->]].
    exists v, (classify a_cut b_cut v). split; [exact Hv|]. split; [reflexivity|].
    now apply classify_spec.
  - intros i s Hi. unfold abc_classification. rewrite Hq. cbv iota zeta beta. rewrite nth_error_map, Hi. simpl.
    now rewrite cls_lookup_None.
  - vm_compute. reflexivity.
Qed.

Lemma abc_rows_inherit_group_class_witness :
  (0 < 4#5)%Q /\ (4#5 < 19#20)%Q /\ (19#20 <= 1)%Q /\ ~ (total scenario2_rows == 0)%Q /\
  abc_classification scenario2_rows (4#5) (19#20) = [A; A; B; C].
Proof.
  assert (H1 : (0 < 4#5)%Q) by (vm_compute; reflexivity).
  assert (H2 : (4#5 < 19#20)%Q) by (vm_compute; reflexivity).
  assert (H3 : (19#20 <= 1)%Q) by (vm_compute; discriminate).
  assert (H4 : ~ (total scenario2_rows == 0)%Q) by (vm_compute; discriminate).
  split; [exact H1|]. split; [exact H2|]. split; [exact H3|]. split; [exact H4|].
  exact (proj2 (proj2 (proj2 (abc_rows_inherit_group_class scenario2_rows (4#5) (19#20) H1 H2 H3 H4)))).
Defined.

(** Claim C1 (failing input). Rows [(NaN, 100); ("g2", 50)], cuts 0.8 and
    0.95: the total is 150, the NaN group has share 2/3 and class A in [cls],
    yet its row is labelled C. *)
Lemma abc_null_key_row_not_group_class :
  ~ (total [(None, Some 100%Q); (Some "g2"%string, Some 50%Q)] == 0)%Q /\
  cls_table [(None, Some 100%Q); (Some "g2"%string, Some 50%Q)] (4#5) (19#20)
    = [(None, A); (Some "g2"%string, C)] /\
  abc_classification [(None, Some 100%Q); (Some "g2"%string, Some 50%Q)] (4#5) (19#20)
    = [C; C].
Proof.
  split; [vm_compute; discriminate|]. split; vm_compute; reflexivity.
Qed.

(** Claim C6. When the aggregated total is zero, in particular when every
    spend is missing, every row is labelled C. *)
Theorem abc_zero_total_all_C rows a_cut b_cut :
  (total rows == 0)%Q \/ Forall (fun r => snd r = None) rows ->
  abc_classification rows a_cut b_cut = List.repeat C (List.length rows).
Proof.
  intros H.
  assert (Hz : Qeq_bool (total rows) 0 = true).
  { apply Qeq_bool_iff. destruct H as [H|H]; [exact H|].
    rewrite total_nonnull, nonnull_spends_nil by exact H. reflexivity. }
  unfold abc_classification. rewrite Hz. apply map_const.
Qed.

Lemma abc_zero_total_all_C_witness :
  Forall (fun r : row => snd r = None) [(Some "g1"%string, None); (None, None)] /\
  abc_classification [(Some "g1"%string, None); (None, None)] (4#5) (19#20) = [C; C].
Proof.
  assert (H : Forall (fun r : row => snd r = None) [(Some "g1"%string, None); (None, None)])
    by (repeat constructor).
  split; [exact H|].
  exact (abc_zero_total_all_C _ (4#5) (19#20) (or_intror H)).
Defined.

(** Claim C7. For any two groups X and Y (positions [i] and [j] of [cum] and
    of [cls]), if X's cumulative share is at most Y's, X's class is not worse
    than Y's in the order A, B, C. *)
Theorem abc_class_monotone rows a_cut b_cut i j kx vx ky vy cx cy :
  nth_error (cum rows) i = Some (kx, vx) ->
  nth_error (cum rows) j = Some (ky, vy) ->
  (vx <= vy)%Q ->
  nth_error (cls_table rows a_cut b_cut) i = Some (kx, cx) ->
  nth_error (cls_table rows a_cut b_cut) j = Some (ky, cy) ->
  abc_rank cx <= abc_rank cy.
Proof.
  intros Hi Hj Hv Ci Cj. unfold cls_table in Ci, Cj.
  rewrite nth_error_map, Hi in Ci. rewrite nth_error_map, Hj in Cj.
  simpl in Ci, Cj. injection Ci as <-. injection Cj as <-.
  now apply classify_mono.
Qed.

Lemma abc_class_monotone_witness :
  abc_rank B <= abc_rank C.
Proof.
  refine (abc_class_monotone scenario2_rows (4#5) (19#20) 2 3
            (Some "g3"%string) (180#200) (Some "g4"%string) (200#200) B C
            _ _ _ _ _); vm_compute; try reflexivity; discriminate.
Defined.

(** Claim C9 (amended). A missing spend adds zero to its group's total; the
    grand total equals the sum of the non-missing spends; a group whose
    spends are all missing has total 0 and, in the descending order, comes
    after every group with a positive total and before every group with a
    negative total. *)
Theorem abc_null_spend_policy rows :
  (forall k, group_sum rows k ==
             Qsum (nonnull_spends (filter (fun r => group_eqb (fst r) k) rows)))%Q /\
  (total rows == Qsum (nonnull_spends rows))%Q /\
  (forall k, In k (map fst rows) ->
     (forall r, In r rows -> fst r = k -> snd r = None) ->
     (group_sum rows k == 0)%Q /\
     exists i, nth_error (agg rows) i = Some (k, group_sum rows k) /\
       (forall j h t, nth_error (agg rows) j = Some (h, t) -> (0 < t)%Q -> j < i) /\
       (forall j h t, nth_error (agg rows) j = Some (h, t) -> (t < 0)%Q -> i < j)).
Proof.
  split; [intros k; apply Qsum_spend_or_0|]. split; [apply total_nonnull|].
  intros k Hk Hnull.
  assert (Hz : (group_sum rows k == 0)%Q).
  { unfold group_sum. rewrite Qsum_spend_or_0, nonnull_spends_nil; [reflexivity|].
    rewrite Forall_forall. intros r Hr. apply filter_In in Hr as [Hr E].
    apply group_eqb_iff in E. now apply Hnull. }
  split; [exact Hz|].
  assert (Hin : In (k, group_sum rows k) (agg rows))
    by (apply agg_In; split; [reflexivity | now apply group_keys_In]).
  destruct (In_nth_error _ _ Hin) as [i Hi]. exists i. split; [exact Hi|]. split.
  - intros j h t Hj Ht. destruct (Nat.lt_ge_cases j i) as [Hlt|Hge]; [exact Hlt|].
    exfalso. destruct (Nat.eq_dec i j) as [<-|Hne].
    + rewrite Hi in Hj. injection Hj as <- <-. lra.
    + pose proof (StronglySorted_nth _ _ i j _ _ (agg_sorted rows) ltac:(lia) Hi Hj) as Hle.
      simpl in Hle. lra.
  - intros j h t Hj Ht. destruct (Nat.lt_ge_cases i j) as [Hlt|Hge]; [exact Hlt|].
    exfalso. destruct (Nat.eq_dec j i) as [->|Hne].
    + rewrite Hi in Hj. injection Hj as <- <-. lra.
    + pose proof (StronglySorted_nth _ _ j i _ _ (agg_sorted rows) ltac:(lia) Hj Hi) as Hle.
      simpl in Hle. lra.
Qed.

Lemma abc_null_spend_policy_witness :
  (group_sum null_spend_rows (Some "g2"%string) == 0)%Q /\
  exists i, nth_error (agg null_spend_rows) i = Some (Some "g2"%string, group_sum null_spend_rows (Some "g2"%string)) /\
    (forall j h t, nth_error (agg null_spend_rows) j = Some (h, t) -> (0 < t)%Q -> j < i) /\
    (forall j h t, nth_error (agg null_spend_rows) j = Some (h, t) -> (t < 0)%Q -> i < j).
Proof.
  apply (proj2 (proj2 (abc_null_spend_policy null_spend_rows)) (Some "g2"%string)).
  - simpl. auto.
  - intros r [<-|[<-|[<-|[]]]]; simpl; intros E; [discriminate E | reflexivity | discriminate E].
Defined.

(** Claim C9 (counterexample). With spends [("g1", NaN); ("g2", -5)] the
    all-missing group g1 (total 0) is ranked first, not last. *)
Lemma abc_null_group_not_last :
  map fst (agg [(Some "g1"%string, None); (Some "g2"%string, Some (-5)%Q)])
    = [Some "g1"%string; Some "g2"%string].
Proof. vm_compute. reflexivity. Qed.

(** Claim C10. [abc_classification] returns one label in {A, B, C} per input
    row, and a row whose key is missing or not found in [cls] gets C. *)
Theorem abc_total_over_rows rows a_cut b_cut :
  List.length (abc_classification rows a_cut b_cut) = List.length rows /\
  Forall (fun c => c = A \/ c = B \/ c = C) (abc_classification rows a_cut b_cut) /\
  (forall i k s, nth_error rows i = Some (k, s) ->
     k = None \/ cls_lookup (cls_table rows a_cut b_cut) k = None ->
     nth_error (abc_classification rows a_cut b_cut) i = Some C).
Proof.
  split; [|split].
  - unfold abc_classification. destruct (Qeq_bool (total rows) 0); apply length_map.
  - apply Forall_forall. intros [| |] _; auto.
  - intros i k s Hi Hk. unfold abc_classification.
    destruct (Qeq_bool (total rows) 0); cbv iota zeta beta; rewrite nth_error_map, Hi;
      [reflexivity|]. simpl.
    destruct Hk as [->|Hk]; [now rewrite cls_lookup_None | now rewrite Hk].
Qed.

Lemma abc_total_over_rows_witness :
  nth_error (abc_classification [(None, Some 100%Q); (Some "g2"%string, Some 50%Q)] (4#5) (19#20)) 0
    = Some C.
Proof.
  exact (proj2 (proj2 (abc_total_over_rows [(None, Some 100%Q); (Some "g2"%string, Some 50%Q)]
           (4#5) (19#20))) 0 None (Some 100%Q) eq_refl (or_introl eq_refl)).
Defined.

End ABCFacts.

(** ** Proofs about [harmonize_names] *)
Module HarmonizeFacts.
Import Harmonize.

Lemma str_lookup_cons k v m x :
  str_lookup ((k, v) :: m) x = if String.eqb k x then Some v else str_lookup m x.
Proof. reflexivity. Qed.

Lemma str_lookup_app m1 m2 x :
  str_lookup (m1 ++ m2) x =
  match str_lookup m1 x with Some v => Some v | None => str_lookup m2 x end.
Proof.
  induction m1 as [|[k v] m1 IH]; simpl; [reflexivity|].
  destruct (String.eqb k x); [reflexivity|apply IH].
Qed.

Lemma str_lookup_None m x : str_lookup m x = None <-> ~ In x (map fst m).
Proof.
  induction m as [|[k v] m IH]; simpl; [tauto|].
  destruct (String.eqb k x) eqn:E.
  - apply String.eqb_eq in E. split; [discriminate|]. intros H. exfalso. auto.
  - apply String.eqb_neq in E. rewrite IH. split; intros H; [intros [->|Hin]; tauto | auto].
Qed.

Lemma str_lookup_Some_In m x v : str_lookup m x = Some v -> In (x, v) m.
Proof.
  induction m as [|[k w] m IH]; simpl; [discriminate|].
  destruct (String.eqb k x) eqn:E; intros H; [|auto].
  apply String.eqb_eq in E. injection H as <-. subst. now left.
Qed.

Lemma str_lookup_const l c x :
  In x l -> str_lookup (map (fun m => (m, c)) l) x = Some c.
Proof.
  induction l as [|y l IH]; simpl; [tauto|]. intros Hin.
  destruct (String.eqb y x) eqn:E; [reflexivity|].
  apply String.eqb_neq in E. destruct Hin as [->|Hin]; [tauto | auto].
Qed.

Lemma str_lookup_dom m x : is_some (str_lookup m x) = true <-> In x (map fst m).
Proof.
  destruct (str_lookup m x) eqn:E; simpl.
  - apply str_lookup_Some_In in E. split; [intros _; exact (in_map fst _ _ E) | reflexivity].
  - apply str_lookup_None in E. split; [discriminate | tauto].
Qed.

Section Inner.
Variables (threshold : Q) (min_len : Z) (u : string).

Lemma inner_shape vs assigned cluster :
  exists added,
    inner threshold min_len u vs assigned cluster
      = (added ++ assigned, cluster ++ rev (map fst added)) /\
    NoDup (map fst added) /\
    (forall p, In p added ->
       snd p = u /\ In (fst p) vs /\ str_lookup assigned (fst p) = None /\
       matches threshold min_len u (fst p) = true) /\
    (forall v, In v vs -> NoDup vs -> str_lookup assigned v = None ->
       matches threshold min_len u v = true -> In v (map fst added)).
Proof.
  revert assigned cluster.
  induction vs as [|v vs IH]; intros assigned cluster; simpl.
  - exists []. simpl. rewrite app_nil_r.
    split; [reflexivity|]. split; [constructor|]. split; [tauto|]. tauto.
  - destruct (str_lookup assigned v) as [w|] eqn:Ev; simpl.
    + destruct (IH assigned cluster) as [added [Heq [Hnd [Hp Hc]]]].
      exists added. split; [exact Heq|]. split; [exact Hnd|]. split.
      * intros p Hin. destruct (Hp p Hin) as [? [? [? ?]]]. auto.
      * intros v' [<-|Hv'] Hnd' Hn Hm; [congruence|].
        apply Hc; auto. now inversion Hnd'.
    + destruct (matches threshold min_len u v) eqn:Em.
      * destruct (IH ((v, u) :: assigned) (cluster ++ [v])) as [added [Heq [Hnd [Hp Hc]]]].
        exists (added ++ [(v, u)]). rewrite Heq. split.
        { rewrite <- app_assoc. simpl. rewrite map_app, rev_app_distr, <- app_assoc. reflexivity. }
        split; [|split].
        { rewrite map_app. simpl. apply NoDup_app; [exact Hnd | repeat constructor; auto |].
          intros x Hx [<-|[]]. apply in_map_iff in Hx as [[k w] [Hk Hin]]. simpl in Hk. subst k.
          destruct (Hp _ Hin) as [_ [_ [Hl _]]]. simpl in Hl.
          rewrite String.eqb_refl in Hl. discriminate. }
        { intros p Hin. apply in_app_or in Hin as [Hin|[<-|[]]].
          - destruct (Hp p Hin) as [Hs [Hv [Hl Hm]]]. rewrite str_lookup_cons in Hl.
            destruct (String.eqb v (fst p)); [discriminate|]. auto.
          - simpl. auto. }
        { intros v' Hv' Hnd' Hn Hm. rewrite map_app, in_app_iff. simpl.
          destruct Hv' as [<-|Hv']; [right; now left|]. left.
          apply NoDup_cons_iff in Hnd' as [Hnv Hnd'].
          apply Hc; auto. rewrite str_lookup_cons.
          destruct (String.eqb v v') eqn:E; [apply String.eqb_eq in E; subst; tauto | exact Hn]. }
      * destruct (IH assigned cluster) as [added [Heq [Hnd [Hp Hc]]]].
        exists added. split; [exact Heq|]. split; [exact Hnd|]. split.
        { intros p Hin. destruct (Hp p Hin) as [? [? [? ?]]]. auto. }
        { intros v' [<-|Hv'] Hnd' Hn Hm; [congruence|].
          apply Hc; auto. now inversion Hnd'. }
Qed.

End Inner.

Lemma str_lookup_added added m x w :
  (forall p, In p added -> str_lookup m (fst p) = None) ->
  str_lookup m x = Some w -> str_lookup (added ++ m) x = Some w.
Proof.
  intros Hadd Hx. rewrite str_lookup_app.
  destruct (str_lookup added x) as [v|] eqn:E; [|exact Hx].
  apply str_lookup_Some_In in E. apply Hadd in E. simpl in E. congruence.
Qed.

Lemma str_lookup_all_same added u x :
  (forall p, In p added -> snd p = u) -> In x (map fst added) ->
  str_lookup added x = Some u.
Proof.
  intros Hs Hx. apply str_lookup_dom in Hx.
  destruct (str_lookup added x) as [v|] eqn:E; [|discriminate].
  apply str_lookup_Some_In, Hs in E. simpl in E. now subst.
Qed.

Section Outer.
Variables (threshold : Q) (min_len : Z) (all : list string).

Lemma inner_stable u vs assigned cluster x w :
  str_lookup assigned x = Some w ->
  str_lookup (fst (inner threshold min_len u vs assigned cluster)) x = Some w.
Proof.
  destruct (inner_shape threshold min_len u vs assigned cluster) as [added [Heq [_ [Hp _]]]].
  rewrite Heq. simpl. apply str_lookup_added. intros p Hin. now apply Hp.
Qed.

Lemma outer_stable us assigned clusters x w :
  str_lookup assigned x = Some w ->
  str_lookup (fst (outer threshold min_len all us assigned clusters)) x = Some w.
Proof.
  revert assigned clusters. induction us as [|u us IH]; intros assigned clusters Hx; simpl; [exact Hx|].
  destruct (is_some (str_lookup assigned u)) eqn:Eu; [now apply IH|].
  destruct (inner threshold min_len u all ((u, u) :: assigned) [u]) as [a' c'] eqn:Ei.
  apply IH. change a' with (fst (a', c')). rewrite <- Ei. apply inner_stable.
  rewrite str_lookup_cons. destruct (String.eqb u x) eqn:E; [|exact Hx].
  apply String.eqb_eq in E. subst. rewrite Hx in Eu. discriminate.
Qed.

Lemma outer_app p q assigned clusters :
  outer threshold min_len all (p ++ q) assigned clusters =
  outer threshold min_len all q (fst (outer threshold min_len all p assigned clusters))
                                (snd (outer threshold min_len all p assigned clusters)).
Proof.
  revert assigned clusters. induction p as [|u p IH]; intros assigned clusters; simpl; [reflexivity|].
  destruct (is_some (str_lookup assigned u)); [apply IH|].
  destruct (inner threshold min_len u all ((u, u) :: assigned) [u]). apply IH.
Qed.

Lemma outer_inv_seed processed assigned clusters u :
  outer_inv threshold min_len all processed assigned clusters ->
  In u all -> str_lookup assigned u = None ->
  outer_inv threshold min_len all (processed ++ [u])
    (fst (inner threshold min_len u all ((u, u) :: assigned) [u]))
    (clusters ++ [snd (inner threshold min_len u all ((u, u) :: assigned) [u])]).
Proof.
  intros [V1 [V2 [V3 [V4 V5]]]] Hu Hnone.
  destruct (inner_shape threshold min_len u all ((u, u) :: assigned) [u]) as [added [Heq [Hnd [Hp _]]]].
  rewrite Heq. simpl.
  assert (Hnu : ~ In u (map fst assigned)) by now apply str_lookup_None.
  assert (Hkeys : forall k, In k (map fst added) -> k <> u /\ ~ In k (map fst assigned)).
  { intros k Hk. apply in_map_iff in Hk as [p [<- Hin]].
    destruct (Hp p Hin) as [_ [_ [Hl _]]]. rewrite str_lookup_cons in Hl.
    destruct (String.eqb u (fst p)) eqn:E; [discriminate|].
    apply String.eqb_neq in E. split; [auto | now apply str_lookup_None]. }
  assert (Hcat : List.concat (clusters ++ [u :: rev (map fst added)])
                 = List.concat clusters ++ u :: rev (map fst added))
    by (rewrite concat_app; simpl; now rewrite app_nil_r).
  assert (Hstab : forall x w, str_lookup assigned x = Some w ->
                    str_lookup (added ++ (u, u) :: assigned) x = Some w).
  { intros x w Hx. apply str_lookup_added.
    - intros p Hin. now apply Hp.
    - rewrite str_lookup_cons. destruct (String.eqb u x) eqn:E; [|exact Hx].
      apply String.eqb_eq in E. subst. congruence. }
  split; [|split; [|split; [|split]]].
  - intros x. rewrite Hcat, map_app, !in_app_iff. simpl. rewrite <- in_rev, V1. tauto.
  - rewrite Hcat. apply NoDup_app; [exact V2| |].
    + constructor; [rewrite <- in_rev; intros Hin; now apply (Hkeys u) in Hin as [? _]|].
      now apply NoDup_rev.
    + intros a Ha [<-|Hin]; [apply Hnu, V1, Ha|].
      rewrite <- in_rev in Hin. apply Hkeys in Hin as [_ Hin]. apply Hin, V1, Ha.
  - intros cl Hcl. apply in_app_or in Hcl as [Hcl|[<-|[]]].
    + destruct (V3 cl Hcl) as [h [t [-> [Hh [Hl Ht]]]]]. exists h, t.
      split; [reflexivity|]. split; [apply in_or_app; now left|].
      split; [intros x Hx; now apply Hstab, Hl | exact Ht].
    + exists u, (rev (map fst added)). split; [reflexivity|].
      split; [apply in_or_app; right; now left|]. split.
      * intros x [<-|Hx].
        -- rewrite str_lookup_app.
           assert (str_lookup added u = None) as ->
             by (apply str_lookup_None; intros Hin; now apply Hkeys in Hin as [? _]).
           simpl. now rewrite String.eqb_refl.
        -- rewrite <- in_rev in Hx. rewrite str_lookup_app, (str_lookup_all_same added u x);
             [reflexivity | intros p Hin; now apply Hp | exact Hx].
      * intros x Hx. rewrite <- in_rev in Hx. split; [now apply Hkeys in Hx as [? _]|].
        apply in_map_iff in Hx as [p [<- Hin]]. now apply Hp.
  - intros x. rewrite Hcat, in_app_iff. simpl. rewrite <- in_rev.
    intros [Hx|[<-|Hx]]; [now apply V4 | exact Hu |].
    apply in_map_iff in Hx as [p [<- Hin]]. now apply Hp.
  - intros x Hx. rewrite map_app, in_app_iff. simpl. right.
    apply in_app_or in Hx as [Hx|[<-|[]]]; [right; now apply V5 | now left].
Qed.

Lemma outer_inv_run us processed assigned clusters :
  outer_inv threshold min_len all processed assigned clusters ->
  (forall u, In u us -> In u all) ->
  outer_inv threshold min_len all (processed ++ us)
    (fst (outer threshold min_len all us assigned clusters))
    (snd (outer threshold min_len all us assigned clusters)).
Proof.
  revert processed assigned clusters.
  induction us as [|u us IH]; intros processed assigned clusters Hinv Hus; simpl.
  - now rewrite app_nil_r.
  - replace (processed ++ u :: us) with ((processed ++ [u]) ++ us) by (now rewrite <- app_assoc).
    destruct (str_lookup assigned u) as [w|] eqn:Eu; simpl.
    + apply IH; [|intros; apply Hus; now right].
      destruct Hinv as [V1 [V2 [V3 [V4 V5]]]].
      split; [exact V1|]. split; [exact V2|]. split.
      * intros cl Hcl. destruct (V3 cl Hcl) as [h [t [Hc [Hh Hr]]]].
        exists h, t. split; [exact Hc|]. split; [apply in_or_app; now left | exact Hr].
      * split; [exact V4|]. intros x Hx. apply in_app_or in Hx as [Hx|[<-|[]]]; [now apply V5|].
        apply str_lookup_Some_In in Eu. exact (in_map fst _ _ Eu).
    + pose proof (outer_inv_seed processed assigned clusters u Hinv (Hus u (or_introl eq_refl)) Eu) as H.
      destruct (inner threshold min_len u all ((u, u) :: assigned) [u]) as [a' c'].
      apply IH; [exact H | intros; apply Hus; now right].
Qed.

Lemma clustering_inv :
  outer_inv threshold min_len all all (fst (clustering threshold min_len all))
    (snd (clustering threshold min_len all)).
Proof.
  unfold clustering. change all with ([] ++ all) at 2.
  apply outer_inv_run; [|auto].
  split; [simpl; tauto|]. split; [constructor|]. split; [simpl; tauto|]. split; simpl; tauto.
Qed.

End Outer.

(** *** [cluster_best] *)
Section ClusterBest.
Variable f : string -> nat.

Lemma max_by_In best l : In (max_by f best l) (best :: l).
Proof.
  revert best. induction l as [|x l IH]; intros best; simpl; [auto|].
  destruct (f best <? f x).
  - destruct (IH x) as [E|H]; rewrite <- ?E; simpl; tauto.
  - destruct (IH best) as [E|H]; rewrite <- ?E; simpl; tauto.
Qed.

Lemma cluster_max_In h t : In (cluster_max f (h :: t)) (h :: t).
Proof. apply max_by_In. Qed.

Let step := fun (acc : list (string * string)) (cl : list string) =>
  rev (map (fun m => (m, cluster_max f cl)) cl) ++ acc.

Lemma step_lookup_in acc cl x : In x cl -> str_lookup (step acc cl) x = Some (cluster_max f cl).
Proof.
  intros Hx. unfold step. rewrite str_lookup_app, <- map_rev, str_lookup_const; [reflexivity|].
  now rewrite <- in_rev.
Qed.

Lemma step_lookup_out acc cl x : ~ In x cl -> str_lookup (step acc cl) x = str_lookup acc x.
Proof.
  intros Hx. unfold step. rewrite str_lookup_app.
  assert (str_lookup (rev (map (fun m => (m, cluster_max f cl)) cl)) x = None) as ->; [|reflexivity].
  apply str_lookup_None. rewrite <- map_rev, map_map. simpl. rewrite map_id, <- in_rev. exact Hx.
Qed.

Lemma cluster_best_out cls acc x :
  ~ In x (List.concat cls) -> str_lookup (fold_left step cls acc) x = str_lookup acc x.
Proof.
  revert acc. induction cls as [|cl cls IH]; intros acc Hx; simpl; [reflexivity|].
  simpl in Hx. rewrite in_app_iff in Hx.
  rewrite IH by tauto. apply step_lookup_out. tauto.
Qed.

Lemma cluster_best_in cls acc cl x :
  NoDup (List.concat cls) -> In cl cls -> In x cl ->
  str_lookup (fold_left step cls acc) x = Some (cluster_max f cl).
Proof.
  revert acc. induction cls as [|cl0 cls IH]; intros acc Hnd Hcl Hx; simpl; [destruct Hcl|].
  simpl in Hnd. destruct Hcl as [<-|Hcl].
  - rewrite cluster_best_out; [now apply step_lookup_in|].
    exact (NoDup_app_disjoint _ _ x Hnd Hx).
  - apply IH; auto. now apply NoDup_app_remove_l in Hnd.
Qed.

Lemma cluster_best_some cls acc x v :
  str_lookup (fold_left step cls acc) x = Some v ->
  (exists cl, In cl cls /\ In x cl /\ v = cluster_max f cl) \/ str_lookup acc x = Some v.
Proof.
  revert acc. induction cls as [|cl0 cls IH]; intros acc H; simpl in *; [now right|].
  destruct (IH _ H) as [[cl [Hcl [Hx ->]]]|H'].
  - left. exists cl. auto.
  - destruct (in_dec string_dec x cl0) as [Hx|Hx].
    + rewrite step_lookup_in in H' by exact Hx. injection H' as <-. left. exists cl0. auto.
    + rewrite step_lookup_out in H' by exact Hx. now right.
Qed.

Lemma cluster_best_of_in cls cl x :
  NoDup (List.concat cls) -> In cl cls -> In x cl ->
  str_lookup (cluster_best_of f cls) x = Some (cluster_max f cl).
Proof. apply cluster_best_in. Qed.

Lemma cluster_best_of_some cls x v :
  str_lookup (cluster_best_of f cls) x = Some v ->
  exists cl, In cl cls /\ In x cl /\ v = cluster_max f cl.
Proof.
  intros H. destruct (cluster_best_some cls [] x v H) as [H'|H']; [exact H'|discriminate].
Qed.

End ClusterBest.

(** *** The output fields as maps over the rows *)

Lemma combine_map_r {X Y} (l : list X) (h : X -> Y) :
  combine l (map h l) = map (fun x => (x, h x)) l.
Proof. induction l as [|x l IH]; simpl; [reflexivity|]. now rewrite IH. Qed.

Lemma combine_map_l {X Y} (l : list X) (g : X -> Y) :
  combine (map g l) l = map (fun x => (g x, x)) l.
Proof. induction l as [|x l IH]; simpl; [reflexivity|]. now rewrite IH. Qed.

Lemma combine_map_map {X Y W} (l : list X) (g : X -> Y) (h : X -> W) :
  combine (map g l) (map h l) = map (fun x => (g x, h x)) l.
Proof. induction l as [|x l IH]; simpl; [reflexivity|]. now rewrite IH. Qed.

Section Fields.
Variables (series : list (option string)) (threshold : Q) (min_len max_uniques : Z).

Let cn := h_canon_norm series threshold min_len max_uniques.
Let disp := h_display series threshold min_len max_uniques.
Let H := harmonize_names series threshold min_len max_uniques.

Lemma canonical_eq :
  canonical H = map (fun r => disp (cn (normalize_text r))) (h_raws series).
Proof.
  change (canonical H) with (map disp (map cn (map normalize_text (h_raws series)))).
  rewrite !map_map. reflexivity.
Qed.

Lemma changed_eq :
  changed H = map (fun r => negb (String.eqb (strip (disp (cn (normalize_text r)))) (strip r)))
                  (h_raws series).
Proof.
  change (changed H) with
    (map (fun p => negb (String.eqb (strip (fst p)) (strip (snd p))))
       (combine (map disp (map cn (map normalize_text (h_raws series)))) (h_raws series))).
  rewrite !map_map, combine_map_l, map_map. reflexivity.
Qed.

Lemma mapping_eq :
  mapping H = sort_by mapping_leb (dedup_by triple_eqb
                (map (fun r => (r, cn (normalize_text r), disp (cn (normalize_text r)))) (h_raws series))).
Proof.
  change (mapping H) with
    (sort_by mapping_leb (dedup_by triple_eqb
       (combine (combine (h_raws series) (map cn (map normalize_text (h_raws series))))
                (map disp (map cn (map normalize_text (h_raws series))))))).
  rewrite !map_map, combine_map_r, combine_map_map. reflexivity.
Qed.

Lemma best_raw_eq :
  h_best_raw series threshold min_len max_uniques =
  map (fun c => (c, top_value (group_raws (h_raws series) (map (fun r => cn (normalize_text r)) (h_raws series)) c)))
      (dedup_by String.eqb (map (fun r => cn (normalize_text r)) (h_raws series))).
Proof. unfold h_best_raw, h_norms. rewrite map_map. reflexivity. Qed.

End Fields.

Lemma str_lookup_graph (g : string -> string) l x :
  In x l -> str_lookup (map (fun c => (c, g c)) l) x = Some (g x).
Proof.
  induction l as [|y l IH]; simpl; [tauto|]. intros Hin.
  destruct (String.eqb y x) eqn:E; [apply String.eqb_eq in E; now subst|].
  apply String.eqb_neq in E. destruct Hin as [->|Hin]; [tauto|auto].
Qed.

Lemma triple_eqb_iff p q : triple_eqb p q = true <-> p = q.
Proof.
  destruct p as [[a1 b1] c1], q as [[a2 b2] c2]. simpl.
  rewrite !andb_true_iff, !String.eqb_eq. split; [intros [[-> ->] ->]; reflexivity|].
  intros H. injection H as -> -> ->. auto.
Qed.

(** *** [value_counts] and [uniques] *)

Lemma value_counts_keys l : Permutation (map fst (value_counts l)) (dedup_by String.eqb l).
Proof.
  unfold value_counts. eapply perm_trans; [apply Permutation_map, sort_by_perm|].
  rewrite map_map. simpl. rewrite map_id. reflexivity.
Qed.

Lemma py_prefix_app {X} (l : list X) m : exists rest, l = py_prefix l m ++ rest.
Proof.
  unfold py_prefix. destruct (0 <=? m)%Z; eexists; symmetry; apply firstn_skipn.
Qed.

Lemma retained_uniques_In l m x : In x (retained_uniques l m) -> In x l.
Proof.
  intros Hx. apply (dedup_by_In String.eqb String.eqb_eq l x).
  apply (Permutation_in _ (value_counts_keys l)).
  unfold retained_uniques in Hx.
  destruct (m <? Z.of_nat (List.length (map fst (value_counts l))))%Z; [|exact Hx].
  destruct (py_prefix_app (map fst (value_counts l)) m) as [rest Hr].
  rewrite Hr. apply in_or_app. now left.
Qed.

Lemma retained_uniques_NoDup l m : NoDup (retained_uniques l m).
Proof.
  assert (Hnd : NoDup (map fst (value_counts l))).
  { eapply Permutation_NoDup; [symmetry; apply value_counts_keys|].
    apply (dedup_by_NoDup String.eqb String.eqb_eq). }
  unfold retained_uniques.
  destruct (m <? Z.of_nat (List.length (map fst (value_counts l))))%Z; [|exact Hnd].
  destruct (py_prefix_app (map fst (value_counts l)) m) as [rest Hr].
  rewrite Hr in Hnd. now apply NoDup_app_remove_r in Hnd.
Qed.

(** *** [top_value] *)

Lemma top_value_In l : l <> [] -> In (top_value l) l.
Proof.
  intros Hl. unfold top_value.
  destruct (value_counts l) as [|[x n] vc] eqn:E.
  - exfalso. destruct l as [|y l]; [congruence|].
    pose proof (value_counts_keys (y :: l)) as P. rewrite E in P. simpl in P.
    apply Permutation_nil in P. unfold dedup_by in P. simpl in P. discriminate.
  - apply (dedup_by_In String.eqb String.eqb_eq l x).
    apply (Permutation_in _ (value_counts_keys l)). rewrite E. now left.
Qed.

Lemma group_raws_In raws (g : string -> string) c o :
  In o (group_raws raws (map g raws) c) <-> In o raws /\ g o = c.
Proof.
  unfold group_raws. rewrite combine_map_r, in_map_iff. split.
  - intros [[r w] [Eo Hp]]. simpl in Eo. subst o.
    apply filter_In in Hp as [Hp Hc]. apply in_map_iff in Hp as [r' [Er Hr']].
    injection Er as <- <-. simpl in Hc. apply String.eqb_eq in Hc. auto.
  - intros [Ho Hc]. exists (o, g o). split; [reflexivity|].
    apply filter_In. split; [apply in_map_iff; exists o; auto|]. simpl. now apply String.eqb_eq.
Qed.

Lemma group_raws_ext raws (g1 g2 : string -> string) c :
  (forall r, In r raws -> String.eqb (g1 r) c = String.eqb (g2 r) c) ->
  group_raws raws (map g1 raws) c = group_raws raws (map g2 raws) c.
Proof.
  unfold group_raws. rewrite !combine_map_r. intros Hg.
  induction raws as [|r raws IH]; simpl; [reflexivity|].
  rewrite (Hg r (or_introl eq_refl)).
  destruct (String.eqb (g2 r) c); simpl; rewrite IH by (intros; apply Hg; now right); reflexivity.
Qed.

Lemma s_raw_of_Some l : s_raw_of (map Some l) = l.
Proof. unfold s_raw_of. rewrite map_map. apply map_id. Qed.

Lemma map_const_false {X} (f : X -> bool) l :
  (forall x, In x l -> f x = false) -> map f l = List.repeat false (List.length l).
Proof.
  induction l as [|x l IH]; intros Hf; simpl; [reflexivity|].
  rewrite Hf by (now left). rewrite IH; [reflexivity|]. intros; apply Hf; now right.
Qed.

(** *** Clusters, [canon_norm] and the displayed spelling *)
Section Canon.
Variables (series : list (option string)) (threshold : Q) (min_len max_uniques : Z).

Let U := h_uniques series max_uniques.
Let CL := h_clusters series threshold min_len max_uniques.
Let raws := h_raws series.
Let freq := count_str (h_norms series).
Let cn := h_canon_norm series threshold min_len max_uniques.
Let disp := h_display series threshold min_len max_uniques.

Lemma h_inv : outer_inv threshold min_len U U (h_assigned series threshold min_len max_uniques) CL.
Proof. apply clustering_inv. Qed.

Lemma h_clusters_NoDup : NoDup (List.concat CL).
Proof. apply h_inv. Qed.

Lemma h_clusters_U x : In x (List.concat CL) <-> In x U.
Proof.
  destruct h_inv as [V1 [_ [_ [V4 V5]]]]. split; [apply V4|].
  intros Hx. apply V1, V5, Hx.
Qed.

Lemma h_uniques_norms x : In x U -> In x (h_norms series).
Proof. apply retained_uniques_In. Qed.

Lemma h_cluster_shape cl : In cl CL -> exists h t, cl = h :: t /\
  (forall x, In x cl -> str_lookup (h_assigned series threshold min_len max_uniques) x = Some h) /\
  (forall x, In x t -> x <> h /\ matches threshold min_len h x = true).
Proof.
  intros Hcl. destruct h_inv as [_ [_ [V3 _]]].
  destruct (V3 cl Hcl) as [h [t [-> [_ [Hl Ht]]]]]. exists h, t. auto.
Qed.

Lemma canon_norm_in_cluster cl x : In cl CL -> In x cl -> cn x = cluster_max freq cl.
Proof.
  intros Hcl Hx. unfold cn, h_canon_norm, str_get, h_cluster_best.
  rewrite (cluster_best_of_in _ _ cl x h_clusters_NoDup Hcl Hx). reflexivity.
Qed.

Lemma canon_norm_cases x :
  (exists cl, In cl CL /\ In x cl /\ cn x = cluster_max freq cl) \/
  (~ In x (List.concat CL) /\ cn x = x).
Proof.
  destruct (in_dec string_dec x (List.concat CL)) as [Hx|Hx].
  - left. apply in_concat in Hx as [cl [Hcl Hx]]. exists cl. split; [exact Hcl|]. split; [exact Hx|].
    now apply canon_norm_in_cluster.
  - right. split; [exact Hx|]. unfold cn, h_canon_norm, str_get.
    destruct (str_lookup _ x) as [v|] eqn:E; [|reflexivity].
    apply cluster_best_of_some in E as [cl [Hcl [Hin _]]].
    exfalso. apply Hx, in_concat. eauto.
Qed.

Lemma canon_norm_cluster_U cl : In cl CL -> In (cluster_max freq cl) U.
Proof.
  intros Hcl. destruct (h_cluster_shape cl Hcl) as [h [t [-> _]]].
  apply h_clusters_U, in_concat. exists (h :: t). split; [exact Hcl|]. apply cluster_max_In.
Qed.

Lemma canon_norm_outside x : ~ In x U -> cn x = x /\ (forall y, cn y = x -> y = x).
Proof.
  intros Hx. split.
  - destruct (canon_norm_cases x) as [[cl [Hcl [Hin _]]]|[_ E]]; [|exact E].
    exfalso. apply Hx, h_clusters_U, in_concat. eauto.
  - intros y Hy. destruct (canon_norm_cases y) as [[cl [Hcl [_ E]]]|[_ E]]; [|congruence].
    exfalso. apply Hx. rewrite <- Hy, E. now apply canon_norm_cluster_U.
Qed.

Lemma display_eq c :
  In c (map (fun r => cn (normalize_text r)) raws) ->
  disp c = top_value (group_raws raws (map (fun r => cn (normalize_text r)) raws) c).
Proof.
  intros Hc. unfold disp, h_display, str_get. rewrite best_raw_eq.
  rewrite str_lookup_graph; [reflexivity|]. now apply (dedup_by_In String.eqb String.eqb_eq).
Qed.

Lemma display_canon r :
  In r raws ->
  In (disp (cn (normalize_text r))) raws /\
  cn (normalize_text (disp (cn (normalize_text r)))) = cn (normalize_text r).
Proof.
  intros Hr. rewrite display_eq by (apply (in_map (fun r => cn (normalize_text r))), Hr).
  apply (proj1 (group_raws_In raws (fun r => cn (normalize_text r)) _ _)), top_value_In.
  intros E.
  assert (Hin : In r (group_raws raws (map (fun r => cn (normalize_text r)) raws) (cn (normalize_text r))))
    by (apply group_raws_In; split; [exact Hr|reflexivity]).
  rewrite E in Hin. destruct Hin.
Qed.

Lemma canonical_self o :
  In o (canonical (harmonize_names series threshold min_len max_uniques)) ->
  o = disp (cn (normalize_text o)).
Proof.
  rewrite canonical_eq. intros Ho. apply in_map_iff in Ho as [r [<- Hr]].
  destruct (display_canon r Hr) as [_ E]. fold cn disp. rewrite E. reflexivity.
Qed.

Lemma canonical_nth i r :
  nth_error raws i = Some r ->
  nth_error (canonical (harmonize_names series threshold min_len max_uniques)) i =
  Some (disp (cn (normalize_text r))).
Proof. intros Hr. rewrite canonical_eq, nth_error_map. fold raws. now rewrite Hr. Qed.

Lemma changed_nth i r :
  nth_error raws i = Some r ->
  nth_error (changed (harmonize_names series threshold min_len max_uniques)) i =
  Some (negb (String.eqb (strip (disp (cn (normalize_text r)))) (strip r))).
Proof. intros Hr. rewrite changed_eq, nth_error_map. fold raws. now rewrite Hr. Qed.

Lemma mapping_In r n c :
  In (r, n, c) (mapping (harmonize_names series threshold min_len max_uniques)) ->
  In r raws /\ n = cn (normalize_text r) /\ c = disp n.
Proof.
  rewrite mapping_eq. intros Hin.
  apply (Permutation_in _ (sort_by_perm _ _)) in Hin.
  rewrite (dedup_by_In triple_eqb triple_eqb_iff) in Hin.
  apply in_map_iff in Hin as [r' [E Hr']]. injection E as <- <- <-. auto.
Qed.

Lemma same_seed_same_canon b s :
  str_lookup (h_assigned series threshold min_len max_uniques) b = Some s -> cn b = cn s.
Proof.
  intros E. destruct h_inv as [V1 _].
  assert (Hb : In b (List.concat CL)) by (apply V1, str_lookup_dom; now rewrite E).
  apply in_concat in Hb as [cl [Hcl Hb]].
  destruct (h_cluster_shape cl Hcl) as [h [t [Ecl [Hall _]]]].
  rewrite Hall in E by exact Hb. injection E as <-.
  rewrite (canon_norm_in_cluster cl b Hcl Hb), (canon_norm_in_cluster cl h Hcl); [reflexivity|].
  rewrite Ecl. now left.
Qed.

Lemma rows_same_canon i j ri rj :
  nth_error raws i = Some ri -> nth_error raws j = Some rj ->
  cn (normalize_text ri) = cn (normalize_text rj) ->
  nth_error (canonical (harmonize_names series threshold min_len max_uniques)) i =
  nth_error (canonical (harmonize_names series threshold min_len max_uniques)) j.
Proof.
  intros Hi Hj E. rewrite (canonical_nth i ri Hi), (canonical_nth j rj Hj). fold cn disp. now rewrite E.
Qed.

Lemma h_norms_nth i x :
  nth_error (h_norms series) i = Some x -> exists r, nth_error raws i = Some r /\ normalize_text r = x.
Proof.
  unfold h_norms. rewrite nth_error_map. fold raws.
  destruct (nth_error raws i) as [r|]; simpl; intros E; [|discriminate].
  injection E as <-. eauto.
Qed.

End Canon.

(** *** Claim C5: partition *)

Lemma truncated_value_in_no_cluster :
  In "bbb"%string (h_norms truncation_series_small) /\
  h_clusters truncation_series_small (23#25) 3 1 = [["aaa"]%string] /\
  ~ In "bbb"%string (List.concat (h_clusters truncation_series_small (23#25) 3 1)).
Proof.
  assert (E : h_clusters truncation_series_small (23#25) 3 1 = [["aaa"]%string])
    by (vm_compute; reflexivity).
  split; [vm_compute; right; right; left; reflexivity|].
  split; [exact E|]. rewrite E. simpl. intros [H|[]]. discriminate.
Qed.

(** Claim C5 (as amended). The clusters partition the retained distinct
    normalized values ([uniques] after the [max_uniques] truncation): no value
    is in two clusters and their union is exactly the retained values. Rows
    with the same normalized value get the same canonical string, and in the
    mapping table two entries whose raw values normalize alike, or whose
    normalized keys agree, carry the same canonical string. *)
Theorem harmonize_partition series threshold min_len max_uniques :
  NoDup (List.concat (h_clusters series threshold min_len max_uniques)) /\
  (forall x, In x (List.concat (h_clusters series threshold min_len max_uniques)) <->
             In x (h_uniques series max_uniques)) /\
  (forall i j x, nth_error (h_norms series) i = Some x -> nth_error (h_norms series) j = Some x ->
     exists c, nth_error (canonical (harmonize_names series threshold min_len max_uniques)) i = Some c /\
               nth_error (canonical (harmonize_names series threshold min_len max_uniques)) j = Some c) /\
  (forall r1 n1 c1 r2 n2 c2,
     In (r1, n1, c1) (mapping (harmonize_names series threshold min_len max_uniques)) ->
     In (r2, n2, c2) (mapping (harmonize_names series threshold min_len max_uniques)) ->
     normalize_text r1 = normalize_text r2 \/ n1 = n2 -> c1 = c2).
Proof.
  split; [apply h_clusters_NoDup|]. split; [apply h_clusters_U|]. split.
  - intros i j x Hi Hj.
    destruct (h_norms_nth series i x Hi) as [ri [Hri Ei]].
    destruct (h_norms_nth series j x Hj) as [rj [Hrj Ej]].
    rewrite (canonical_nth series threshold min_len max_uniques i ri Hri),
            (canonical_nth series threshold min_len max_uniques j rj Hrj), Ei, Ej. eauto.
  - intros r1 n1 c1 r2 n2 c2 H1 H2 E.
    destruct (mapping_In series threshold min_len max_uniques r1 n1 c1 H1) as [_ [En1 ->]].
    destruct (mapping_In series threshold min_len max_uniques r2 n2 c2 H2) as [_ [En2 ->]].
    destruct E as [E|E]; [|now rewrite E]. now rewrite En1, En2, E.
Qed.

Lemma harmonize_partition_witness :
  NoDup (List.concat (h_clusters truncation_series_small (23#25) 3 1)) /\
  h_clusters truncation_series_small (23#25) 3 1 = [["aaa"]%string].
Proof.
  split; [exact (proj1 (harmonize_partition truncation_series_small (23#25) 3 1))|].
  vm_compute. reflexivity.
Defined.

(** *** Claim C2: values beyond the truncation *)

Lemma truncated_row_respelled :
  h_uniques truncation_series 1 = ["aaa"]%string /\
  normalize_text "Acme" = "acme"%string /\
  nth_error (canonical (harmonize_names truncation_series (23#25) 3 1)) 6 = Some "ACME"%string /\
  nth_error (changed (harmonize_names truncation_series (23#25) 3 1)) 6 = Some true.
Proof. repeat split; vm_compute; reflexivity. Qed.

(** Claim C2 (as amended). A row whose normalized value [x] was cut by the
    [max_uniques] truncation is clustered with no other value: its
    [canon_norm] is [x] itself and no other value has [x] as [canon_norm].
    Its output canonical string is the most frequent raw spelling among the
    rows normalizing to [x] (not [x]), and its changed flag is set exactly
    when that spelling, stripped, differs from the row's stripped raw value. *)
Theorem harmonize_truncated_rows series threshold min_len max_uniques i r :
  nth_error (h_raws series) i = Some r ->
  ~ In (normalize_text r) (h_uniques series max_uniques) ->
  h_canon_norm series threshold min_len max_uniques (normalize_text r) = normalize_text r /\
  (forall y, h_canon_norm series threshold min_len max_uniques y = normalize_text r ->
             y = normalize_text r) /\
  nth_error (canonical (harmonize_names series threshold min_len max_uniques)) i =
    Some (top_value (group_raws (h_raws series) (h_norms series) (normalize_text r))) /\
  nth_error (changed (harmonize_names series threshold min_len max_uniques)) i =
    Some (negb (String.eqb
      (strip (top_value (group_raws (h_raws series) (h_norms series) (normalize_text r))))
      (strip r))).
Proof.
  intros Hr Hx.
  destruct (canon_norm_outside series threshold min_len max_uniques _ Hx) as [E1 E2].
  assert (Hd : h_display series threshold min_len max_uniques (normalize_text r) =
               top_value (group_raws (h_raws series) (h_norms series) (normalize_text r))).
  { rewrite <- E1 at 1. rewrite display_eq.
    - rewrite E1. unfold h_norms. f_equal. apply group_raws_ext. intros r' _.
      destruct (String.eqb_spec (h_canon_norm series threshold min_len max_uniques (normalize_text r'))
                                (normalize_text r)) as [H1|H1];
      destruct (String.eqb_spec (normalize_text r') (normalize_text r)) as [H2|H2];
      try reflexivity; exfalso.
      + exact (H2 (E2 _ H1)).
      + apply H1. now rewrite H2.
    - apply in_map_iff. exists r. split; [reflexivity|]. eapply nth_error_In; eauto. }
  split; [exact E1|]. split; [exact E2|]. split.
  - rewrite (canonical_nth series threshold min_len max_uniques i r Hr), E1, Hd. reflexivity.
  - rewrite (changed_nth series threshold min_len max_uniques i r Hr), E1, Hd. reflexivity.
Qed.

Lemma harmonize_truncated_rows_witness :
  nth_error (h_raws truncation_series) 6 = Some "Acme"%string /\
  ~ In (normalize_text "Acme") (h_uniques truncation_series 1) /\
  nth_error (canonical (harmonize_names truncation_series (23#25) 3 1)) 6 =
    Some (top_value (group_raws (h_raws truncation_series) (h_norms truncation_series)
                                (normalize_text "Acme"))).
Proof.
  assert (H1 : nth_error (h_raws truncation_series) 6 = Some "Acme"%string)
    by (vm_compute; reflexivity).
  assert (H2 : ~ In (normalize_text "Acme") (h_uniques truncation_series 1)).
  { assert (E : h_uniques truncation_series 1 = ["aaa"]%string) by (vm_compute; reflexivity).
    rewrite E. vm_compute. intros [H|H]; [discriminate|exact H]. }
  split; [exact H1|]. split; [exact H2|].
  exact (proj1 (proj2 (proj2 (harmonize_truncated_rows truncation_series (23#25) 3 1 6 _ H1 H2)))).
Defined.

(** *** Claim C3: no parameter validation *)

Lemma similarity_nonneg u v : (0 <= similarity u v)%Q.
Proof.
  unfold similarity, ratio. destruct (_ =? 0) eqn:E; [lra|].
  apply Nat.eqb_neq in E. apply Qle_shift_div_l.
  - change 0%Q with (inject_Z 0). rewrite <- Zlt_Qlt. lia.
  - rewrite Qmult_0_l. change 0%Q with (inject_Z 0). rewrite <- Zle_Qle. lia.
Qed.

(** With [threshold <= 0] and [min_len <= 0] the test of l.91 always passes,
    also for empty strings. *)
Lemma matches_all threshold min_len u v :
  (threshold <= 0)%Q -> (min_len <= 0)%Z -> matches threshold min_len u v = true.
Proof.
  intros Ht Hm. unfold matches.
  rewrite !(proj2 (Z.leb_le _ _)) by lia. simpl.
  apply Qle_bool_iff. pose proof (similarity_nonneg u v). lra.
Qed.

(** Then the first value seeds one cluster that takes every value. *)
Lemma clustering_all_one threshold min_len U u0 x :
  (threshold <= 0)%Q -> (min_len <= 0)%Z -> NoDup U -> hd_error U = Some u0 -> In x U ->
  str_lookup (fst (clustering threshold min_len U)) x = Some u0.
Proof.
  intros Ht Hm Hnd Hhd Hx. destruct U as [|u U']; [discriminate|]. injection Hhd as ->.
  unfold clustering. cbn [outer str_lookup is_some].
  destruct (inner threshold min_len u0 (u0 :: U') [(u0, u0)] [u0]) as [a' c'] eqn:Ei.
  apply outer_stable. change a' with (fst (a', c')). rewrite <- Ei.
  destruct (inner_shape threshold min_len u0 (u0 :: U') [(u0, u0)] [u0]) as [added [Heq [_ [Hp Hc]]]].
  rewrite Heq. cbn [fst].
  destruct (String.eqb u0 x) eqn:E.
  - apply String.eqb_eq in E. subst x. apply str_lookup_added.
    + intros p Hin. apply Hp in Hin as [_ [_ [Hl _]]]. exact Hl.
    + simpl. now rewrite String.eqb_refl.
  - rewrite str_lookup_app, (str_lookup_all_same added u0 x); [reflexivity| |].
    + intros p Hin. now apply Hp.
    + apply Hc; [exact Hx|exact Hnd| |now apply matches_all].
      simpl. now rewrite E.
Qed.

Lemma harmonize_all_merge series threshold min_len max_uniques i j ri rj :
  (threshold <= 0)%Q -> (min_len <= 0)%Z ->
  nth_error (h_raws series) i = Some ri -> nth_error (h_raws series) j = Some rj ->
  In (normalize_text ri) (h_uniques series max_uniques) ->
  In (normalize_text rj) (h_uniques series max_uniques) ->
  nth_error (canonical (harmonize_names series threshold min_len max_uniques)) i =
  nth_error (canonical (harmonize_names series threshold min_len max_uniques)) j.
Proof.
  intros Ht Hm Hi Hj Hxi Hxj.
  assert (Hnd : NoDup (h_uniques series max_uniques)) by apply retained_uniques_NoDup.
  destruct (h_uniques series max_uniques) as [|u0 U'] eqn:EU; [destruct Hxi|].
  assert (Hs : forall x, In x (u0 :: U') ->
            str_lookup (h_assigned series threshold min_len max_uniques) x = Some u0).
  { intros x Hx. unfold h_assigned. rewrite EU. now apply clustering_all_one. }
  apply (rows_same_canon series threshold min_len max_uniques i j ri rj Hi Hj).
  rewrite (same_seed_same_canon series threshold min_len max_uniques _ u0 (Hs _ Hxi)).
  rewrite (same_seed_same_canon series threshold min_len max_uniques _ u0 (Hs _ Hxj)).
  reflexivity.
Qed.

(** Claim C3 (counterexample). Invalid parameters give a result, not an
    error: swapped cuts 0.9 and 0.5 label two rows A and C; threshold -1 and
    minimum length 0 merge "ab" and "cd"; and minimum length 0 merges a blank
    value into "ab", which minimum length 1 (the clamped value) does not. *)
Lemma no_validation_example :
  ABC.abc_classification [(Some "g1"%string, Some 100%Q); (Some "g2"%string, Some 50%Q)]
    (9#10) (1#2) = [ABC.A; ABC.C] /\
  canonical (harmonize_names loose_series (-1) 0 3000) = ["ab"; "ab"; "ab"]%string /\
  canonical (harmonize_names blank_series 0 0 3000) = ["ab"; "ab"; "ab"]%string /\
  canonical (harmonize_names blank_series 0 1 3000) = ["ab"; "ab"; ""]%string.
Proof. split; [|split; [|split]]; vm_compute; reflexivity. Qed.

(** Claim C3 (as amended). Neither function validates its parameters: for
    any cuts, threshold, minimum length and [max_uniques], a result with one
    entry per input row is returned, computed with the parameters as given:
    with a non-zero total, each row with a non-missing key gets the class
    that [a_cut] and [b_cut] give its group's cumulative share, so with
    [b_cut <= a_cut] no row is labelled B; every member of a cluster other
    than its seed passed the test of l.91 with [threshold] and [min_len]
    themselves; and with [threshold <= 0] and [min_len <= 0] (outside the
    valid ranges) every row whose normalized value is retained, empty
    strings included, gets the same canonical string. *)
Theorem no_parameter_validation series threshold min_len max_uniques rows a_cut b_cut :
  List.length (canonical (harmonize_names series threshold min_len max_uniques)) = List.length series /\
  List.length (changed (harmonize_names series threshold min_len max_uniques)) = List.length series /\
  List.length (ABC.abc_classification rows a_cut b_cut) = List.length rows /\
  (~ (ABC.total rows == 0)%Q ->
     forall i k s, nth_error rows i = Some (Some k, s) ->
       exists v, In (Some k, v) (ABC.cum rows) /\
         nth_error (ABC.abc_classification rows a_cut b_cut) i = Some (ABC.classify a_cut b_cut v)) /\
  ((b_cut <= a_cut)%Q -> ~ In ABC.B (ABC.abc_classification rows a_cut b_cut)) /\
  (forall cl, In cl (h_clusters series threshold min_len max_uniques) ->
     exists h t, cl = h :: t /\ forall x, In x t -> matches threshold min_len h x = true) /\
  ((threshold <= 0)%Q -> (min_len <= 0)%Z ->
     forall i j ri rj,
       nth_error (h_raws series) i = Some ri -> nth_error (h_raws series) j = Some rj ->
       In (normalize_text ri) (h_uniques series max_uniques) ->
       In (normalize_text rj) (h_uniques series max_uniques) ->
       nth_error (canonical (harmonize_names series threshold min_len max_uniques)) i =
       nth_error (canonical (harmonize_names series threshold min_len max_uniques)) j).
Proof.
  split; [|split; [|split; [|split; [|split; [|split]]]]].
  - rewrite canonical_eq, !length_map. unfold h_raws, s_raw_of. apply length_map.
  - rewrite changed_eq, !length_map. unfold h_raws, s_raw_of. apply length_map.
  - unfold ABC.abc_classification. destruct (Qeq_bool _ _); apply length_map.
  - intros Htot i k s Hi. exact (ABCFacts.abc_row_class_as_given rows a_cut b_cut i k s Htot Hi).
  - apply ABCFacts.abc_no_B_swapped.
  - intros cl Hcl. destruct (h_cluster_shape series threshold min_len max_uniques cl Hcl)
      as [h [t [Ecl [_ Ht]]]].
    exists h, t. split; [exact Ecl|]. intros x Hx. now apply Ht.
  - intros Ht Hm i j ri rj. now apply harmonize_all_merge.
Qed.

(** Parameters outside the valid ranges give a result: 3 canonical strings
    for [loose_series] with threshold -1 and minimum length 0, where the rows
    "ab" and "cd" get the same one; 2 labels and no B for swapped cuts. *)
Lemma no_parameter_validation_witness :
  List.length (canonical (harmonize_names loose_series (-1) 0 3000)) = 3 /\
  nth_error (canonical (harmonize_names loose_series (-1) 0 3000)) 0 =
    nth_error (canonical (harmonize_names loose_series (-1) 0 3000)) 2 /\
  List.length (ABC.abc_classification [(Some "g1"%string, Some 100%Q); (Some "g2"%string, Some 50%Q)]
    (9#10) (1#2)) = 2 /\
  ~ In ABC.B (ABC.abc_classification [(Some "g1"%string, Some 100%Q); (Some "g2"%string, Some 50%Q)]
    (9#10) (1#2)).
Proof.
  pose proof (no_parameter_validation loose_series (-1) 0 3000
    [(Some "g1"%string, Some 100%Q); (Some "g2"%string, Some 50%Q)] (9#10) (1#2))
    as [H1 [_ [H3 [_ [H5 [_ H7]]]]]].
  split; [exact H1|]. split.
  - apply (H7 ltac:(vm_compute; discriminate) ltac:(vm_compute; discriminate) 0 2 "ab"%string "cd"%string);
      vm_compute; try reflexivity; auto.
  - split; [exact H3|]. apply H5. vm_compute. discriminate.
Defined.

(** *** Claim C4: running again on the output *)

Lemma harmonize_rerun_changes :
  canonical (harmonize_names mixed_case_series (3#5) 1 3000) =
    ["aab"; "aab"; "aab"; "aab"; "aab"; "abb"]%string /\
  changed (harmonize_names (map Some (canonical (harmonize_names mixed_case_series (3#5) 1 3000)))
             (3#5) 1 3000) = [false; false; false; false; false; true].
Proof. split; vm_compute; reflexivity. Qed.

(** Claim C4 (as amended). If no two distinct normalized forms of the first
    run's canonical strings are similar enough to be clustered together
    (both at least [min_len] long and similarity at least [threshold]), then
    a second run on the canonical output flags no row as changed. *)
Theorem harmonize_rerun_unchanged series threshold min_len max_uniques :
  (forall x y,
     In x (canonical (harmonize_names series threshold min_len max_uniques)) ->
     In y (canonical (harmonize_names series threshold min_len max_uniques)) ->
     normalize_text x <> normalize_text y ->
     matches threshold min_len (normalize_text x) (normalize_text y) = false) ->
  changed (harmonize_names (map Some (canonical (harmonize_names series threshold min_len max_uniques)))
             threshold min_len max_uniques) = List.repeat false (List.length series).
Proof.
  intros Hsep.
  set (O := canonical (harmonize_names series threshold min_len max_uniques)) in *.
  assert (Hraw2 : h_raws (map Some O) = O) by apply s_raw_of_Some.
  assert (Hcn2 : forall y, h_canon_norm (map Some O) threshold min_len max_uniques y = y).
  { intros y.
    destruct (canon_norm_cases (map Some O) threshold min_len max_uniques y)
      as [[cl [Hcl [Hy E]]]|[_ E]]; [|exact E].
    rewrite E. destruct (h_cluster_shape (map Some O) threshold min_len max_uniques cl Hcl)
      as [h [t [Ecl [_ Ht]]]]. subst cl.
    destruct t as [|x t].
    - destruct Hy as [<-|[]]. reflexivity.
    - exfalso. destruct (Ht x (or_introl eq_refl)) as [Hne Hm].
      assert (Hh : In h (h_norms (map Some O))).
      { apply (h_uniques_norms _ max_uniques), (h_clusters_U _ threshold min_len max_uniques), in_concat. exists (h :: x :: t). split; [exact Hcl|now left]. }
      assert (Hx : In x (h_norms (map Some O))).
      { apply (h_uniques_norms _ max_uniques), (h_clusters_U _ threshold min_len max_uniques), in_concat. exists (h :: x :: t).
        split; [exact Hcl|right; now left]. }
      unfold h_norms in Hh, Hx. rewrite Hraw2 in Hh, Hx.
      apply in_map_iff in Hh as [o1 [<- Ho1]]. apply in_map_iff in Hx as [o2 [<- Ho2]].
      rewrite (Hsep o1 o2 Ho1 Ho2) in Hm; [discriminate|].
      intros E'. apply Hne. now rewrite E'. }
  assert (HO : List.length O = List.length series).
  { unfold O. rewrite canonical_eq, length_map. unfold h_raws, s_raw_of. apply length_map. }
  rewrite changed_eq, Hraw2, <- HO. apply map_const_false. intros r Hr.
  rewrite Hcn2.
  destruct (display_canon (map Some O) threshold min_len max_uniques r) as [Hd1 Hd2];
    [rewrite Hraw2; exact Hr|].
  rewrite !Hcn2 in Hd1. rewrite !Hcn2 in Hd2. rewrite Hraw2 in Hd1.
  revert Hd1 Hd2.
  generalize (h_display (map Some O) threshold min_len max_uniques (normalize_text r)) as d.
  intros d Hd1 Hd2.
  pose proof (canonical_self series threshold min_len max_uniques d Hd1) as E1.
  pose proof (canonical_self series threshold min_len max_uniques r Hr) as E2.
  rewrite Hd2 in E1.
  assert (Edr : d = r) by congruence.
  rewrite Edr, String.eqb_refl. reflexivity.
Qed.

Lemma harmonize_rerun_unchanged_witness :
  (forall x y,
     In x (canonical (harmonize_names scenario1_series (23#25) 3 3000)) ->
     In y (canonical (harmonize_names scenario1_series (23#25) 3 3000)) ->
     normalize_text x <> normalize_text y ->
     matches (23#25) 3 (normalize_text x) (normalize_text y) = false) /\
  changed (harmonize_names (map Some (canonical (harmonize_names scenario1_series (23#25) 3 3000)))
             (23#25) 3 3000) = [false; false; false; false].
Proof.
  assert (Hsep : forall x y,
     In x (canonical (harmonize_names scenario1_series (23#25) 3 3000)) ->
     In y (canonical (harmonize_names scenario1_series (23#25) 3 3000)) ->
     normalize_text x <> normalize_text y ->
     matches (23#25) 3 (normalize_text x) (normalize_text y) = false).
  { assert (E : canonical (harmonize_names scenario1_series (23#25) 3 3000) =
                ["Acme Corp"; "Acme Corp"; "Acme Corp"; "Globex"]%string)
      by (vm_compute; reflexivity).
    rewrite E. intros x y Hx Hy Hne.
    repeat match goal with H : In _ _ |- _ => destruct H as [<-|H] | H : In _ [] |- _ => destruct H end;
      first [exfalso; apply Hne; reflexivity | vm_compute; reflexivity]. }
  split; [exact Hsep|].
  exact (harmonize_rerun_unchanged scenario1_series (23#25) 3 3000 Hsep).
Defined.

(** *** Claim C8: seed order *)

Lemma later_value_not_joined :
  h_uniques chain_series 3000 = ["aa"; "aab"; "abb"]%string /\
  matches (3#5) 1 "aab" "abb" = true /\
  canonical (harmonize_names chain_series (3#5) 1 3000) =
    ["aa"; "aa"; "aa"; "aa"; "aa"; "abb"]%string.
Proof. repeat split; vm_compute; reflexivity. Qed.

(** Claim C8 (as amended). Let [a] and [b] be retained normalized values,
    [a] processed before [b], with [matches a b] (both at least [min_len]
    long and similarity at least [threshold]). If [a] seeds its own cluster,
    then [b] is assigned to the seed [s] of [a]'s cluster or of a cluster
    seeded before [a], and every row normalizing to [b] gets the same
    canonical string as every row normalizing to [s]. *)
Theorem harmonize_seed_order series threshold min_len max_uniques ia ib a b :
  nth_error (h_uniques series max_uniques) ia = Some a ->
  nth_error (h_uniques series max_uniques) ib = Some b ->
  ia < ib ->
  str_lookup (h_assigned series threshold min_len max_uniques) a = Some a ->
  matches threshold min_len a b = true ->
  exists s is_,
    str_lookup (h_assigned series threshold min_len max_uniques) b = Some s /\
    nth_error (h_uniques series max_uniques) is_ = Some s /\ is_ <= ia /\
    str_lookup (h_assigned series threshold min_len max_uniques) s = Some s /\
    (forall i j ri rj,
       nth_error (h_raws series) i = Some ri -> nth_error (h_raws series) j = Some rj ->
       normalize_text ri = b -> normalize_text rj = s ->
       nth_error (canonical (harmonize_names series threshold min_len max_uniques)) i =
       nth_error (canonical (harmonize_names series threshold min_len max_uniques)) j).
Proof.
  intros Ha Hb Hab Hseed Hm.
  set (U := h_uniques series max_uniques) in *.
  set (asg := h_assigned series threshold min_len max_uniques) in *.
  assert (Hnd : NoDup U) by apply retained_uniques_NoDup.
  destruct (nth_error_split U ia Ha) as [p [q [HU Hp]]].
  set (asg1 := fst (outer threshold min_len U p [] [])).
  set (cls1 := snd (outer threshold min_len U p [] [])).
  assert (Hfinal : asg = fst (outer threshold min_len U (a :: q) asg1 cls1)).
  { transitivity (fst (outer threshold min_len U (p ++ a :: q) [] [])).
    - rewrite <- HU. reflexivity.
    - rewrite outer_app. reflexivity. }
  assert (Inv1 : outer_inv threshold min_len U p asg1 cls1).
  { apply (outer_inv_run threshold min_len U p [] [] []).
    - split; [simpl; tauto|]. split; [constructor|]. split; [simpl; tauto|]. split; simpl; tauto.
    - intros u Hu. rewrite HU. apply in_or_app. now left. }
  destruct Inv1 as [V1 [_ [V3 _]]].
  assert (Hdisj : forall x, In x p -> ~ In x (a :: q)).
  { intros x Hx. apply (NoDup_app_disjoint p (a :: q) x); [rewrite <- HU; exact Hnd|exact Hx]. }
  assert (Hlook : forall x h, str_lookup asg1 x = Some h -> In h p /\ str_lookup asg1 h = Some h).
  { intros x h E.
    assert (Hx : In x (List.concat cls1)) by (apply V1, str_lookup_dom; now rewrite E).
    apply in_concat in Hx as [cl [Hcl Hx]].
    destruct (V3 cl Hcl) as [h' [t [Ecl [Hh' [Hall _]]]]].
    rewrite Hall in E by exact Hx. injection E as <-.
    split; [exact Hh'|]. apply Hall. rewrite Ecl. now left. }
  assert (Ha1 : str_lookup asg1 a = None).
  { destruct (str_lookup asg1 a) as [h|] eqn:E; [exfalso|reflexivity].
    destruct (Hlook a h E) as [Hh _].
    pose proof (outer_stable threshold min_len U (a :: q) asg1 cls1 a h E) as F.
    rewrite <- Hfinal, Hseed in F. injection F as <-.
    exact (Hdisj a Hh (or_introl eq_refl)). }
  assert (Hstep : forall x w,
            str_lookup (fst (inner threshold min_len a U ((a, a) :: asg1) [a])) x = Some w ->
            str_lookup asg x = Some w).
  { intros x w E. rewrite Hfinal. cbn [outer]. rewrite Ha1. cbn [is_some].
    destruct (inner threshold min_len a U ((a, a) :: asg1) [a]) as [asg2 cl2].
    now apply outer_stable. }
  assert (Hs : exists s is_, str_lookup asg b = Some s /\ nth_error U is_ = Some s /\
                             is_ <= ia /\ str_lookup asg s = Some s).
  { destruct (str_lookup asg1 b) as [h|] eqn:Eb.
    - destruct (Hlook b h Eb) as [Hh Hhh].
      destruct (In_nth_error p h Hh) as [n Hn].
      assert (Hlt : n < List.length p) by (apply nth_error_Some; congruence).
      exists h, n. split; [|split; [|split]].
      + rewrite Hfinal. now apply outer_stable.
      + rewrite HU, nth_error_app1 by exact Hlt. exact Hn.
      + lia.
      + rewrite Hfinal. now apply outer_stable.
    - assert (Hba : a <> b).
      { intros <-. assert (Hlen : ia < List.length U) by (apply nth_error_Some; congruence).
        pose proof (proj1 (NoDup_nth_error U) Hnd ia ib Hlen) as E.
        rewrite Ha, Hb in E. specialize (E eq_refl). lia. }
      destruct (inner_shape threshold min_len a U ((a, a) :: asg1) [a]) as [added [Hin [_ [Hpa Hc]]]].
      assert (Hbadd : In b (map fst added)).
      { apply Hc; [eapply nth_error_In; eauto|exact Hnd| |exact Hm].
        rewrite str_lookup_cons. apply String.eqb_neq in Hba. now rewrite Hba. }
      exists a, ia. split; [|split; [exact Ha|split; [lia|exact Hseed]]].
      apply Hstep. rewrite Hin. cbn [fst]. rewrite str_lookup_app.
      rewrite (str_lookup_all_same added a b); [reflexivity| |exact Hbadd].
      intros p' Hp'. now apply Hpa. }
  destruct Hs as [s [is_ [Hbs [Hs [Hle Hss]]]]].
  exists s, is_. split; [exact Hbs|]. split; [exact Hs|]. split; [exact Hle|]. split; [exact Hss|].
  intros i j ri rj Hi Hj Ei Ej.
  apply (rows_same_canon series threshold min_len max_uniques i j ri rj Hi Hj).
  rewrite Ei, Ej. exact (same_seed_same_canon series threshold min_len max_uniques b s Hbs).
Qed.

Lemma harmonize_seed_order_witness :
  nth_error (h_uniques chain_series_small 3000) 0 = Some "aa"%string /\
  nth_error (h_uniques chain_series_small 3000) 1 = Some "aab"%string /\
  str_lookup (h_assigned chain_series_small (3#5) 1 3000) "aa" = Some "aa"%string /\
  matches (3#5) 1 "aa" "aab" = true /\
  exists s is_,
    str_lookup (h_assigned chain_series_small (3#5) 1 3000) "aab" = Some s /\
    nth_error (h_uniques chain_series_small 3000) is_ = Some s /\ is_ <= 0.
Proof.
  assert (H1 : nth_error (h_uniques chain_series_small 3000) 0 = Some "aa"%string)
    by (vm_compute; reflexivity).
  assert (H2 : nth_error (h_uniques chain_series_small 3000) 1 = Some "aab"%string)
    by (vm_compute; reflexivity).
  assert (H3 : str_lookup (h_assigned chain_series_small (3#5) 1 3000) "aa" = Some "aa"%string)
    by (vm_compute; reflexivity).
  assert (H4 : matches (3#5) 1 "aa" "aab" = true) by (vm_compute; reflexivity).
  split; [exact H1|]. split; [exact H2|]. split; [exact H3|]. split; [exact H4|].
  destruct (harmonize_seed_order chain_series_small (3#5) 1 3000 0 1 _ _ H1 H2 (Nat.lt_0_1) H3 H4)
    as [s [is_ [Hb [Hs [Hle _]]]]].
  exists s, is_. split; [exact Hb|]. split; [exact Hs|exact Hle].
Defined.

End HarmonizeFacts.

(** ** Facts about the other functions of [utils.py] *)
Module UtilsFacts.
Import Harmonize Utils.

Lemma lstrip_split (l : list ascii) :
  exists p, l = p ++ lstrip l /\ (forall c, In c p -> is_space c = true).
Proof.
  induction l as [|c l IH]; simpl.
  - exists []. split; [reflexivity|intros _ []].
  - destruct (is_space c) eqn:E.
    + destruct IH as [p [Hp Hs]]. exists (c :: p). split; [simpl; congruence|].
      intros d [<-|H]; auto.
    + exists []. split; [reflexivity|intros _ []].
Qed.

Lemma lstrip_head (l : list ascii) c l' : lstrip l = c :: l' -> is_space c = false.
Proof.
  induction l as [|d l IH]; simpl; [discriminate|].
  destruct (is_space d) eqn:E; [exact IH|]. intros [= -> _]. exact E.
Qed.

Lemma lstrip_id (l : list ascii) :
  (forall c l', l = c :: l' -> is_space c = false) -> lstrip l = l.
Proof. destruct l as [|c l]; simpl; [reflexivity|]. intros H. rewrite (H c l eq_refl). reflexivity. Qed.

Lemma strip_list_split (l : list ascii) : exists p s, l = p ++ strip_list l ++ s.
Proof.
  unfold strip_list.
  destruct (lstrip_split l) as [p [Hp _]].
  destruct (lstrip_split (rev (lstrip l))) as [q [Hq _]].
  exists p, (rev q). rewrite Hp at 1. f_equal.
  transitivity (rev (rev (lstrip l))); [symmetry; apply rev_involutive|].
  rewrite Hq at 1. rewrite rev_app_distr. reflexivity.
Qed.

Lemma strip_list_In (l : list ascii) c : In c (strip_list l) -> In c l.
Proof.
  destruct (strip_list_split l) as [p [s E]]. intros H. rewrite E.
  apply in_or_app. right. apply in_or_app. left. exact H.
Qed.

Lemma strip_list_first (l : list ascii) c l' : strip_list l = c :: l' -> is_space c = false.
Proof.
  unfold strip_list. intros E.
  destruct (lstrip_split (rev (lstrip l))) as [q [Hq _]].
  assert (lstrip l = c :: l' ++ rev q) as E2.
  { transitivity (rev (rev (lstrip l))); [symmetry; apply rev_involutive|].
    rewrite Hq at 1. rewrite rev_app_distr, E. reflexivity. }
  exact (lstrip_head _ _ _ E2).
Qed.

Lemma strip_list_last (l : list ascii) c l' : strip_list l = l' ++ [c] -> is_space c = false.
Proof.
  unfold strip_list. intros E.
  apply (f_equal (@rev ascii)) in E. rewrite rev_involutive, rev_app_distr in E.
  exact (lstrip_head _ _ _ E).
Qed.

Lemma strip_list_id (l : list ascii) :
  (forall c l', l = c :: l' -> is_space c = false) ->
  (forall c l', l = l' ++ [c] -> is_space c = false) -> strip_list l = l.
Proof.
  intros H1 H2. unfold strip_list. rewrite (lstrip_id l H1).
  rewrite lstrip_id; [apply rev_involutive|].
  intros c l' E. apply (H2 c (rev l')).
  rewrite <- (rev_involutive l), E. reflexivity.
Qed.

Lemma collapse_ws_In b (l : list ascii) c :
  In c (collapse_ws b l) -> c = " "%char \/ (In c l /\ is_space c = false).
Proof.
  revert b. induction l as [|d l IH]; intros b; simpl; [intros []|].
  destruct (is_space d) eqn:E; [destruct b|].
  - intros H. destruct (IH _ H) as [?|[? ?]]; auto.
  - intros [<-|H]; [auto|]. destruct (IH _ H) as [?|[? ?]]; auto.
  - intros [<-|H]; [auto|]. destruct (IH _ H) as [?|[? ?]]; auto.
Qed.

Lemma collapse_ws_true_head (l : list ascii) c l' :
  collapse_ws true l = c :: l' -> is_space c = false.
Proof.
  induction l as [|d l IH]; simpl; [discriminate|].
  destruct (is_space d) eqn:E; [exact IH|]. intros [= -> _]. exact E.
Qed.

Lemma collapse_ws_no_double b (l : list ascii) p q :
  collapse_ws b l <> p ++ " "%char :: " "%char :: q.
Proof.
  revert b p. induction l as [|d l IH]; intros b p; simpl.
  - destruct p; discriminate.
  - destruct (is_space d) eqn:E; [destruct b|].
    + apply IH.
    + destruct p as [|x p]; simpl.
      * intros [= E2]. apply collapse_ws_true_head in E2. discriminate.
      * intros [= _ E2]. exact (IH _ _ E2).
    + destruct p as [|x p]; simpl.
      * intros [= -> _]. discriminate.
      * intros [= _ E2]. exact (IH _ _ E2).
Qed.

Lemma collapse_ws_id b (l : list ascii) :
  (forall c, In c l -> is_space c = true -> c = " "%char) ->
  (forall p q, l <> p ++ " "%char :: " "%char :: q) ->
  (b = true -> forall c l', l = c :: l' -> is_space c = false) ->
  collapse_ws b l = l.
Proof.
  revert b. induction l as [|c l IH]; intros b H1 H2 H3; simpl; [reflexivity|].
  assert (H1' : forall d, In d l -> is_space d = true -> d = " "%char) by (intros; apply H1; simpl; auto).
  assert (H2' : forall p q, l <> p ++ " "%char :: " "%char :: q).
  { intros p q E. apply (H2 (c :: p) q). rewrite E. reflexivity. }
  destruct (is_space c) eqn:E.
  - destruct b.
    + rewrite (H3 eq_refl c l eq_refl) in E. discriminate.
    + rewrite (H1 c (or_introl eq_refl) E). f_equal. apply IH; auto.
      intros _ d l' ->. destruct (is_space d) eqn:E2; [|reflexivity].
      rewrite (H1 c (or_introl eq_refl) E), (H1' d (or_introl eq_refl) E2) in H2.
      exfalso. exact (H2 [] l' eq_refl).
  - f_equal. apply IH; auto. discriminate.
Qed.

Lemma single_spaced_strip_collapse (l : list ascii) :
  single_spaced (strip_list (collapse_ws false l)).
Proof.
  repeat split.
  - intros c H Hs. apply strip_list_In, collapse_ws_In in H.
    destruct H as [?|[_ H]]; [assumption|congruence].
  - intros p q E. destruct (strip_list_split (collapse_ws false l)) as [p0 [s0 E0]].
    rewrite E, <- app_assoc in E0. simpl in E0. rewrite app_assoc in E0.
    exact (collapse_ws_no_double _ _ _ _ E0).
  - apply strip_list_first.
  - apply strip_list_last.
Qed.

Lemma single_spaced_fixed (l : list ascii) :
  single_spaced l -> strip_list (collapse_ws false l) = l.
Proof.
  intros [H1 [H2 [H3 H4]]].
  rewrite collapse_ws_id by (auto; discriminate).
  apply strip_list_id; assumption.
Qed.

Lemma lower_id c : is_lower_alnum c = true \/ c = " "%char -> lower c = c.
Proof.
  unfold lower, is_lower_alnum. intros [H| ->]; [|reflexivity].
  destruct (65 <=? nat_of_ascii c) eqn:E1, (nat_of_ascii c <=? 90) eqn:E2; simpl; try reflexivity.
  apply Nat.leb_le in E1. apply Nat.leb_le in E2.
  destruct (97 <=? nat_of_ascii c) eqn:E3, (nat_of_ascii c <=? 122) eqn:E4,
    (48 <=? nat_of_ascii c) eqn:E5, (nat_of_ascii c <=? 57) eqn:E6; simpl in H; try discriminate;
  repeat match goal with Hx : (_ <=? _) = true |- _ => apply Nat.leb_le in Hx end; lia.
Qed.

Lemma normalize_text_form_aux x :
  single_spaced (list_ascii_of_string (normalize_text x)) /\
  (forall c, In c (list_ascii_of_string (normalize_text x)) -> is_lower_alnum c = true \/ c = " "%char).
Proof.
  unfold normalize_text. rewrite list_ascii_of_string_of_list_ascii.
  split; [apply single_spaced_strip_collapse|].
  intros c H. apply strip_list_In, collapse_ws_In in H. destruct H as [->|[H Hs]]; [auto|].
  unfold sub_non_alnum in H. apply in_map_iff in H. destruct H as [d [<- _]].
  destruct (is_lower_alnum d) eqn:E; simpl in *; [auto|].
  destruct (is_space d) eqn:E2; simpl in Hs; [congruence|auto].
Qed.

(** [normalize_text] returns lowercase letters, digits and single spaces
    only: every character is in [a-z0-9] or is " ", no two spaces are
    adjacent, and the text neither starts nor ends with a space. *)
Theorem normalize_text_normal_form (x : string) :
  single_spaced (list_ascii_of_string (normalize_text x)) /\
  (forall c, In c (list_ascii_of_string (normalize_text x)) -> is_lower_alnum c = true \/ c = " "%char).
Proof. exact (normalize_text_form_aux x). Qed.

(** [normalize_text] is idempotent: normalizing a normalized text changes
    nothing. *)
Theorem normalize_text_idem x : normalize_text (normalize_text x) = normalize_text x.
Proof.
  destruct (normalize_text_form_aux x) as [Hss Hch].
  remember (list_ascii_of_string (normalize_text x)) as L eqn:EL.
  assert (Hn : normalize_text x = string_of_list_ascii L) by (rewrite EL, string_of_list_ascii_of_string; reflexivity).
  rewrite Hn. unfold normalize_text at 1. rewrite list_ascii_of_string_of_list_ascii.
  destruct Hss as [H1 [H2 [H3 H4]]] eqn:Hss'.
  rewrite (strip_list_id L H3 H4).
  rewrite map_ext_in with (g := fun c => c) by (intros c Hc; apply lower_id, Hch, Hc).
  rewrite map_id.
  unfold sub_non_alnum.
  rewrite map_ext_in with (g := fun c => c).
  2:{ intros c Hc. destruct (Hch c Hc) as [E| ->]; [rewrite E; reflexivity|reflexivity]. }
  rewrite map_id. rewrite single_spaced_fixed by exact Hss. reflexivity.
Qed.

Lemma normalize_description_form_aux o :
  single_spaced (list_ascii_of_string (normalize_description_one o)).
Proof.
  unfold normalize_description_one. rewrite list_ascii_of_string_of_list_ascii.
  apply single_spaced_strip_collapse.
Qed.

(** Every value [normalize_description] returns is single-spaced: its only
    whitespace characters are single " " between non-space characters. *)
Theorem normalize_description_single_spaced (series : list (option string)) (s : string) :
  In s (normalize_description series) -> single_spaced (list_ascii_of_string s).
Proof.
  unfold normalize_description. intros Hs. apply in_map_iff in Hs as [o [<- _]].
  apply normalize_description_form_aux.
Qed.

(** [normalize_description] is idempotent: applied to its own output it
    returns the same series. *)
Theorem normalize_description_idem (series : list (option string)) :
  normalize_description (map Some (normalize_description series)) = normalize_description series.
Proof.
  unfold normalize_description. rewrite map_map, map_map. apply map_ext. intros o.
  unfold normalize_description_one at 1.
  rewrite single_spaced_fixed by apply normalize_description_form_aux.
  apply string_of_list_ascii_of_string.
Qed.


Lemma span_spec p (l a r : list ascii) :
  span p l = (a, r) ->
  l = a ++ r /\ (forall c, In c a -> p c = true) /\ (forall c r', r = c :: r' -> p c = false).
Proof.
  revert a r. induction l as [|c l IH]; intros a r; simpl.
  - intros [= <- <-]. repeat split; [intros _ []|discriminate].
  - destruct (p c) eqn:E.
    + destruct (span p l) as [a' r'] eqn:Es. intros [= <- <-].
      destruct (IH a' r' eq_refl) as [H1 [H2 H3]].
      repeat split; [simpl; congruence| |exact H3].
      intros d [<-|H]; auto.
    + intros [= <- <-]. repeat split; [intros _ []|]. intros d r' [= -> _]. exact E.
Qed.

Lemma span_app p (a r : list ascii) :
  (forall c, In c a -> p c = true) -> (forall c r', r = c :: r' -> p c = false) ->
  span p (a ++ r) = (a, r).
Proof.
  intros Ha Hr. induction a as [|c a IH]; simpl.
  - destruct r as [|d r]; [reflexivity|]. cbn. rewrite (Hr d r eq_refl). reflexivity.
  - rewrite (Ha c (or_introl eq_refl)), IH by (intros; apply Ha; simpl; auto). reflexivity.
Qed.



Lemma numeric_char_cases c :
  numeric_char c = true -> is_digit c = true \/ c = "."%char \/ c = "-"%char.
Proof.
  unfold numeric_char. destruct (is_digit c); [auto|].
  destruct (Ascii.eqb c "."%char) eqn:E1; [apply Ascii.eqb_eq in E1; auto|].
  destruct (Ascii.eqb c "-"%char) eqn:E2; [apply Ascii.eqb_eq in E2; auto|discriminate].
Qed.

Lemma digit_not_dot c : is_digit c = true -> c <> "."%char /\ c <> "-"%char /\ c <> "+"%char.
Proof. intros H. repeat split; intros ->; discriminate. Qed.

Lemma keep_drop (l : list ascii) : keep_numeric (drop_comma_ws l) = filter numeric_char l.
Proof.
  unfold keep_numeric, drop_comma_ws. induction l as [|c l IH]; simpl; [reflexivity|].
  destruct (numeric_char c) eqn:E.
  - assert (Hd : (Ascii.eqb c ","%char || is_space c) = false).
    { destruct (numeric_char_cases c E) as [H|[-> | ->]]; [|reflexivity|reflexivity].
      unfold is_digit in H. unfold is_space.
      destruct (Ascii.eqb c ","%char) eqn:Ec; [apply Ascii.eqb_eq in Ec; subst; discriminate|].
      simpl. apply andb_prop in H. destruct H as [H1 H2]. apply Nat.leb_le in H1, H2.
      destruct (9 <=? nat_of_ascii c) eqn:A1, (nat_of_ascii c <=? 13) eqn:A2,
        (28 <=? nat_of_ascii c) eqn:A3, (nat_of_ascii c <=? 32) eqn:A4; simpl; try reflexivity;
      repeat match goal with Hx : (_ <=? _) = true |- _ => apply Nat.leb_le in Hx end; lia. }
    rewrite Hd. simpl. rewrite E, IH. reflexivity.
  - destruct (negb (Ascii.eqb c ","%char || is_space c)); simpl; [rewrite E|]; exact IH.
Qed.

Lemma clean_amount_chars s : clean_amount_one (Some s) = to_numeric (numeric_chars s).
Proof. unfold clean_amount_one, as_str, numeric_chars. rewrite keep_drop. reflexivity. Qed.

Lemma to_numeric_cons c r :
  to_numeric (c :: r) =
  if Ascii.eqb c "-"%char then after_sign true r
  else if Ascii.eqb c "+"%char then after_sign false r else after_sign false (c :: r).
Proof.
  unfold to_numeric, after_sign. simpl.
  destruct (Ascii.eqb c "-"%char); [reflexivity|]. destruct (Ascii.eqb c "+"%char); reflexivity.
Qed.

Lemma after_sign_value neg (ip dot fp : list ascii) :
  (dot = [] /\ fp = []) \/ dot = ["."%char] ->
  (forall c, In c ip -> is_digit c = true) -> (forall c, In c fp -> is_digit c = true) ->
  ip ++ fp <> [] ->
  after_sign neg (ip ++ dot ++ fp) = xstrtod_value neg ip fp.
Proof.
  intros Hd Hip Hfp Hne. unfold after_sign.
  rewrite (span_app is_digit ip (dot ++ fp) Hip).
  2:{ intros c r' E. destruct Hd as [[-> ->]| ->]; [discriminate|]. injection E as <- _. reflexivity. }
  destruct Hd as [[-> ->]| ->].
  - simpl. destruct (ip ++ []) as [|a b]; [contradiction|reflexivity].
  - simpl. rewrite <- (app_nil_r fp) at 1. rewrite (span_app is_digit fp [] Hfp) by discriminate.
    destruct (ip ++ fp) as [|a b]; [contradiction|reflexivity].
Qed.

Lemma clean_amount_xstrtod (s : string) (sg ip dot fp : list ascii) :
  numeric_chars s = sg ++ ip ++ dot ++ fp ->
  sg = [] \/ sg = ["-"%char] ->
  (dot = [] /\ fp = []) \/ dot = ["."%char] ->
  (forall c, In c ip -> is_digit c = true) -> (forall c, In c fp -> is_digit c = true) ->
  ip ++ fp <> [] ->
  clean_amount_one (Some s) = xstrtod_value (match sg with [] => false | _ => true end) ip fp.
Proof.
  intros E Hsg Hd Hip Hfp Hne. rewrite clean_amount_chars, E.
  destruct Hsg as [->| ->].
  - cbn [app]. destruct ip as [|c ip'].
    + destruct Hd as [[-> ->]| ->]; [contradiction|].
      cbn [app]. rewrite to_numeric_cons. simpl.
      exact (after_sign_value false [] ["."%char] fp (or_intror eq_refl) Hip Hfp Hne).
    + cbn [app]. rewrite to_numeric_cons.
      destruct (digit_not_dot c (Hip c (or_introl eq_refl))) as [_ [N2 N3]].
      destruct (Ascii.eqb c "-"%char) eqn:E1; [apply Ascii.eqb_eq in E1; contradiction|].
      destruct (Ascii.eqb c "+"%char) eqn:E2; [apply Ascii.eqb_eq in E2; contradiction|].
      exact (after_sign_value false (c :: ip') dot fp Hd Hip Hfp Hne).
  - cbn [app]. rewrite to_numeric_cons. simpl. exact (after_sign_value true ip dot fp Hd Hip Hfp Hne).
Qed.

(** Printing and reading back a natural number. *)
Lemma digits_value_acc (u : Decimal.uint) (acc : nat) :
  fold_left (fun acc c => acc * 10 + digit_val c)%Z (uint_digits u) (Z.of_nat acc) =
  Z.of_nat (Nat.of_uint_acc u acc).
Proof.
  revert acc. induction u; intros acc; simpl; try reflexivity;
  rewrite <- IHu, ?Nat.tail_mul_spec; unfold digit_val; simpl; f_equal; lia.
Qed.

Lemma uint_digits_nat (n : nat) : digits_value (decimal_digits n) = Z.of_nat n.
Proof.
  unfold digits_value, decimal_digits.
  change 0%Z with (Z.of_nat 0). rewrite digits_value_acc.
  change (Nat.of_uint_acc (Nat.to_uint n) 0) with (Nat.of_uint (Nat.to_uint n)).
  rewrite DecimalNat.Unsigned.of_to. reflexivity.
Qed.

Lemma uint_digits_digit (u : Decimal.uint) c : In c (uint_digits u) -> is_digit c = true.
Proof. induction u; simpl; intros H; try contradiction; destruct H as [<-|H]; auto. Qed.

Lemma decimal_digits_ne (n : nat) : decimal_digits n <> [].
Proof.
  unfold decimal_digits. intros H.
  assert (Hu : Nat.to_uint n = Decimal.Nil) by (destruct (Nat.to_uint n); try discriminate; reflexivity).
  pose proof (DecimalNat.Unsigned.of_to n) as E. rewrite Hu in E. simpl in E. subst n. discriminate.
Qed.

(** Reading digits after a value [acc] already read. *)
Lemma digits_value_fold (ds : list ascii) (acc : Z) :
  fold_left (fun acc c => acc * 10 + digit_val c)%Z ds acc =
  (acc * 10 ^ Z.of_nat (List.length ds) + digits_value ds)%Z.
Proof.
  revert acc. induction ds as [|c ds IH]; intros acc; [simpl; unfold digits_value; simpl; lia|].
  cbn [fold_left]. rewrite (IH (acc * 10 + digit_val c)%Z).
  unfold digits_value at 2. cbn [fold_left]. rewrite (IH (0 * 10 + digit_val c)%Z).
  cbn [List.length]. rewrite Znat.Nat2Z.inj_succ, Z.pow_succ_r by lia. ring.
Qed.

Lemma digit_val_range c : is_digit c = true -> (0 <= digit_val c <= 9)%Z.
Proof.
  unfold is_digit, digit_val. intros H. apply andb_prop in H as [H1 H2].
  apply Nat.leb_le in H1, H2. lia.
Qed.

Lemma digits_value_range (ds : list ascii) :
  (forall c, In c ds -> is_digit c = true) ->
  (0 <= digits_value ds < 10 ^ Z.of_nat (List.length ds))%Z.
Proof.
  induction ds as [|c ds IH]; intros Hds; [unfold digits_value; simpl; lia|].
  change (digits_value (c :: ds)) with
    (fold_left (fun acc c => acc * 10 + digit_val c)%Z ds (0 * 10 + digit_val c)%Z).
  rewrite digits_value_fold. cbn [List.length]. rewrite Znat.Nat2Z.inj_succ, Z.pow_succ_r by lia.
  pose proof (digit_val_range c (Hds c (or_introl eq_refl))).
  destruct (IH (fun d Hd => Hds d (or_intror Hd))) as [H1 H2]. nia.
Qed.

Lemma digits_value_lead c (ds : list ascii) :
  (forall d, In d (c :: ds) -> is_digit d = true) -> c <> "0"%char ->
  (10 ^ Z.of_nat (List.length ds) <= digits_value (c :: ds))%Z.
Proof.
  intros Hds Hc.
  change (digits_value (c :: ds)) with
    (fold_left (fun acc c => acc * 10 + digit_val c)%Z ds (0 * 10 + digit_val c)%Z).
  rewrite digits_value_fold.
  assert (Hv : (1 <= digit_val c)%Z).
  { pose proof (Hds c (or_introl eq_refl)) as H. unfold is_digit in H. unfold digit_val.
    apply andb_prop in H as [H1 _]. apply Nat.leb_le in H1.
    destruct (Nat.eq_dec (nat_of_ascii c) 48) as [E|E]; [|lia].
    exfalso. apply Hc. rewrite <- (ascii_nat_embedding c), E. reflexivity. }
  destruct (digits_value_range ds (fun d Hd => Hds d (or_intror Hd))) as [H1 _].
  assert (0 < 10 ^ Z.of_nat (List.length ds))%Z by (apply Z.pow_pos_nonneg; lia). nia.
Qed.

(** The decimal writing of a number is "0" or starts with a non-zero digit. *)
Lemma decimal_digits_head (n : nat) :
  decimal_digits n = ["0"%char] \/ exists c ds, decimal_digits n = c :: ds /\ c <> "0"%char.
Proof.
  unfold decimal_digits.
  assert (E : Nat.to_uint n = Decimal.unorm (Nat.to_uint n)).
  { rewrite <- DecimalNat.Unsigned.to_of, DecimalNat.Unsigned.of_to. reflexivity. }
  revert E. unfold Decimal.unorm.
  destruct (Decimal.nzhead (Nat.to_uint n)) as [| u| u| u| u| u| u| u| u| u| u] eqn:Ez;
    intros E; rewrite E; simpl; [left; reflexivity| |right; eexists; eexists; split; [reflexivity|discriminate]..].
  exfalso. exact (DecimalFacts.nzhead_nonzero _ _ Ez).
Qed.

Lemma decimal_digits_length (n : nat) :
  (Z.of_nat n < 2 ^ 53)%Z -> List.length (decimal_digits n) <= 16.
Proof.
  intros Hn. destruct (decimal_digits_head n) as [E|[c [ds [E Hc]]]]; [rewrite E; simpl; lia|].
  pose proof (digits_value_lead c ds) as H. rewrite <- E in H.
  specialize (H (uint_digits_digit _) Hc). rewrite uint_digits_nat in H. rewrite E. simpl.
  destruct (Nat.le_gt_cases (List.length ds) 15) as [Hle|Hgt]; [lia|exfalso].
  assert (H16 : (10 ^ 16 <= 10 ^ Z.of_nat (List.length ds))%Z) by (apply Z.pow_le_mono_r; lia).
  assert (H53 : (2 ^ 53 < 10 ^ 16)%Z) by (vm_compute; reflexivity). lia.
Qed.

Lemma huge_val_bound_large : (10 ^ 17 < 2 ^ 1024 - 2 ^ 970)%Z.
Proof. vm_compute. reflexivity. Qed.

(** With at most [max_digits] digits, [precise_xstrtod] keeps them all and
    reads their exact value (far below [HUGE_VAL]). *)
Lemma xstrtod_value_short neg (ip fp : list ascii) :
  (forall c, In c ip -> is_digit c = true) -> (forall c, In c fp -> is_digit c = true) ->
  List.length (ip ++ fp) <= max_digits ->
  xstrtod_value neg ip fp = Some (num_value neg ip fp).
Proof.
  intros Hip Hfp Hlen. rewrite length_app in Hlen. unfold xstrtod_value, num_value.
  rewrite (firstn_all2 ip) by lia. rewrite (firstn_all2 fp) by lia.
  replace (List.length ip - max_digits) with 0 by lia.
  assert (Hd : forall c, In c (ip ++ fp) -> is_digit c = true)
    by (intros c Hc; apply in_app_or in Hc as [Hc|Hc]; auto).
  destruct (digits_value_range (ip ++ fp) Hd) as [D0 D1].
  assert (D2 : (digits_value (ip ++ fp) < 2 ^ 1024 - 2 ^ 970)%Z).
  { pose proof huge_val_bound_large.
    assert (10 ^ Z.of_nat (List.length (ip ++ fp)) <= 10 ^ 17)%Z
      by (apply Z.pow_le_mono_r; [lia|]; rewrite length_app; unfold max_digits in Hlen; lia).
    lia. }
  generalize dependent (digits_value (ip ++ fp)). intros d D0 _ D2.
  destruct fp as [|f fp].
  - cbn [List.length Z.of_nat]. simpl (0 - 0)%Z. cbn [Z.leb Z.ltb].
    replace (d * 10 ^ 0)%Z with d by ring.
    assert (Hq : Qle_bool huge_val_bound (inject_Z d) = false).
    { apply not_true_iff_false. rewrite Qle_bool_iff. unfold huge_val_bound. rewrite <- Zle_Qle. lia. }
    cbn [Z.leb Z.ltb Z.compare]. rewrite Hq. reflexivity.
  - set (k := Z.of_nat (List.length (f :: fp))).
    assert (Hk : (0 < k)%Z) by (unfold k; simpl; lia).
    replace (Z.of_nat 0 - k)%Z with (- k)%Z by lia.
    rewrite (proj2 (Z.ltb_ge 308 (- k))) by lia.
    rewrite (proj2 (Z.leb_gt 0 (- k))) by lia. rewrite Z.opp_involutive.
    assert (Hq : Qle_bool huge_val_bound (Qmake d (Z.to_pos (10 ^ k))) = false).
    { apply not_true_iff_false. rewrite Qle_bool_iff. unfold huge_val_bound, Qle. simpl.
      assert (Hp : (1 <= Z.pos (Z.to_pos (10 ^ k)))%Z) by lia. nia. }
    rewrite Hq. reflexivity.
Qed.

(** When the kept characters of a text are an optional '-', integer digits,
    and optionally a '.' with fraction digits, with at least one and at most
    17 digits in all, [clean_amount] reads them as that decimal number: the
    digits over 10 to the number of fraction digits, negated for a leading
    '-'. *)
Theorem clean_amount_decimal (s : string) (sg ip dot fp : list ascii) :
  numeric_chars s = sg ++ ip ++ dot ++ fp ->
  sg = [] \/ sg = ["-"%char] ->
  (dot = [] /\ fp = []) \/ dot = ["."%char] ->
  (forall c, In c ip -> is_digit c = true) -> (forall c, In c fp -> is_digit c = true) ->
  ip ++ fp <> [] -> List.length (ip ++ fp) <= 17 ->
  clean_amount_one (Some s) = Some (num_value (match sg with [] => false | _ => true end) ip fp).
Proof.
  intros E Hsg Hd Hip Hfp Hne Hlen.
  rewrite (clean_amount_xstrtod s sg ip dot fp E Hsg Hd Hip Hfp Hne).
  now apply xstrtod_value_short.
Qed.

(** A text whose kept characters are the decimal writing of a natural
    number [n] below 2^53 (e.g. "INR 1,234") is read back as [n]. *)
Theorem clean_amount_integer (s : string) (n : nat) :
  (Z.of_nat n < 2 ^ 53)%Z -> numeric_chars s = decimal_digits n ->
  clean_amount_one (Some s) = Some (inject_Z (Z.of_nat n)).
Proof.
  intros Hn E.
  rewrite (clean_amount_xstrtod s [] (decimal_digits n) [] [] ltac:(rewrite E; rewrite app_nil_r; reflexivity)
             (or_introl eq_refl) (or_introl (conj eq_refl eq_refl)) (uint_digits_digit _) ltac:(intros _ [])
             ltac:(rewrite app_nil_r; apply decimal_digits_ne)).
  rewrite xstrtod_value_short;
    [|apply uint_digits_digit|intros _ []|rewrite app_nil_r; pose proof (decimal_digits_length n Hn); unfold max_digits; lia].
  unfold num_value. rewrite app_nil_r, uint_digits_nat. reflexivity.
Qed.

Lemma clean_amount_integer_witness :
  (Z.of_nat 1234 < 2 ^ 53)%Z /\ numeric_chars "INR 1,234"%string = decimal_digits 1234 /\
  clean_amount_one (Some "INR 1,234"%string) = Some (inject_Z 1234).
Proof.
  split; [vm_compute; reflexivity|]. split; [vm_compute; reflexivity|].
  apply (clean_amount_integer _ 1234); vm_compute; reflexivity.
Defined.

(** Beyond the double range [precise_xstrtod] reports [ERANGE] and the value
    is NaN, for either sign: 400 nines, 309 nines; 308 nines stay below
    [DBL_MAX]. Digits after the 17th are not read. *)
Lemma clean_amount_overflow_examples :
  clean_amount_one (Some (string_of_list_ascii (repeat "9"%char 400))) = None /\
  clean_amount_one (Some (string_of_list_ascii ("-"%char :: repeat "9"%char 400))) = None /\
  clean_amount_one (Some (string_of_list_ascii (repeat "9"%char 309))) = None /\
  clean_amount_one (Some (string_of_list_ascii (repeat "9"%char 308))) <> None /\
  clean_amount_one (Some "12345678901234567890.5"%string) = Some (inject_Z 12345678901234567000).
Proof.
  split; [vm_compute; reflexivity|]. split; [vm_compute; reflexivity|].
  split; [vm_compute; reflexivity|]. split; [vm_compute; discriminate|].
  vm_compute. reflexivity.
Qed.



Lemma after_app prev p q : after prev (p ++ q) = after (after prev p) q.
Proof. revert prev. induction p; simpl; auto. Qed.

Lemma after_snoc prev p c : after prev (p ++ [c]) = Some c.
Proof. rewrite after_app. reflexivity. Qed.

Lemma search_from_spec its prev s :
  search_from its prev s = true <-> exists p q, s = p ++ q /\ match_at its (after prev p) q = true.
Proof.
  revert prev. induction s as [|d s IH]; intros prev; simpl.
  - rewrite orb_false_r. split.
    + intros H. exists [], []. auto.
    + intros [p [q [E H]]]. symmetry in E. apply app_eq_nil in E. destruct E as [-> ->]. exact H.
  - rewrite orb_true_iff, IH. split.
    + intros [H|[p [q [E H]]]].
      * exists [], (d :: s). auto.
      * exists (d :: p), q. rewrite E. auto.
    + intros [p [q [E H]]]. destruct p as [|c p].
      * left. simpl in *. rewrite E. exact H.
      * right. injection E as <- E. exists p, q. auto.
Qed.

Lemma match_at_lit (w : list ascii) its prev s :
  match_at (map Chr w ++ its) prev s = true <-> exists q, s = w ++ q /\ match_at its (after prev w) q = true.
Proof.
  revert prev s. induction w as [|c w IH]; intros prev s; simpl.
  - split; [intros H; exists s; auto|intros [q [-> H]]; exact H].
  - destruct s as [|d s].
    + split; [discriminate|intros [q [E _]]; discriminate].
    + rewrite andb_true_iff, IH. split.
      * intros [E [q [-> H]]]. apply Ascii.eqb_eq in E. subst d. exists q. auto.
      * intros [q [E H]]. injection E as <- E. split; [apply Ascii.eqb_refl|]. exists q. auto.
Qed.

Lemma match_at_star_unfold its prev s :
  match_at (SpStar :: its) prev s =
  match_at its prev s ||
  match s with d :: s' => is_space d && match_at (SpStar :: its) (Some d) s' | [] => false end.
Proof. destruct s; reflexivity. Qed.

Lemma match_at_star its prev s :
  match_at (SpStar :: its) prev s = true <->
  exists sp q, s = sp ++ q /\ (forall c, In c sp -> is_space c = true) /\ match_at its (after prev sp) q = true.
Proof.
  revert prev. induction s as [|d s IH]; intros prev; rewrite match_at_star_unfold.
  - rewrite orb_false_r. split.
    + intros H. exists [], []. split; [reflexivity|]. split; [intros _ []|exact H].
    + intros [sp [q [E [_ H]]]]. symmetry in E. apply app_eq_nil in E. destruct E as [-> ->]. exact H.
  - rewrite orb_true_iff, andb_true_iff, IH. split.
    + intros [H|[Hs [sp [q [E [Hsp H]]]]]].
      * exists [], (d :: s). split; [reflexivity|]. split; [intros _ []|exact H].
      * exists (d :: sp), q. rewrite E. split; [reflexivity|]. split; [|exact H].
        intros c [<-|Hc]; auto.
    + intros [sp [q [E [Hsp H]]]]. destruct sp as [|c sp].
      * left. simpl in *. rewrite E. exact H.
      * right. injection E as <- E. split; [apply Hsp; left; reflexivity|].
        exists sp, q. split; [exact E|]. split; [intros; apply Hsp; right; assumption|exact H].
Qed.


Lemma norm_char_word c : norm_char c -> (is_word c = true <-> c <> " "%char).
Proof.
  intros [H| ->]; [|split; [discriminate|intros N; congruence]].
  split; [intros _ ->; discriminate|intros _].
  unfold is_lower_alnum in H. unfold is_word.
  destruct (97 <=? nat_of_ascii c), (nat_of_ascii c <=? 122), (48 <=? nat_of_ascii c), (nat_of_ascii c <=? 57);
    simpl in *; rewrite ?orb_true_r; try reflexivity; discriminate.
Qed.

Lemma before_nonword (L p q : list ascii) :
  (forall c, In c L -> norm_char c) -> L = p ++ q ->
  (word_at (after None p) = false <-> p = [] \/ exists p', p = p' ++ [" "%char]).
Proof.
  intros HL E. destruct (list_eq_dec ascii_dec p []) as [->|Hne]; [simpl; tauto|].
  destruct (exists_last Hne) as [p' [c ->]]. rewrite after_snoc. simpl.
  assert (Hc : norm_char c) by (apply HL; rewrite E; apply in_or_app; left; apply in_or_app; right; left; reflexivity).
  pose proof (norm_char_word c Hc) as W. split.
  - intros H. right. exists p'. f_equal. f_equal.
    destruct (ascii_dec c " "%char) as [->|N]; [reflexivity|]. apply W in N. congruence.
  - intros [H|[p'' H]]; [destruct p'; discriminate|].
    apply app_inj_tail in H. destruct H as [_ ->]. reflexivity.
Qed.

Lemma after_nonword (L p q : list ascii) :
  (forall c, In c L -> norm_char c) -> L = p ++ q ->
  (word_at (hd_error q) = false <-> q = [] \/ exists q', q = " "%char :: q').
Proof.
  intros HL E. destruct q as [|c q]; simpl; [tauto|].
  assert (Hc : norm_char c) by (apply HL; rewrite E; apply in_or_app; right; left; reflexivity).
  pose proof (norm_char_word c Hc) as W. split.
  - intros H. right. exists q. destruct (ascii_dec c " "%char) as [->|N]; [reflexivity|].
    apply W in N. congruence.
  - intros [H|[q' H]]; [discriminate|]. injection H as -> _. reflexivity.
Qed.

Lemma lower_alnum_not_space c : is_lower_alnum c = true -> is_space c = false.
Proof.
  unfold is_lower_alnum, is_space. cbv zeta. generalize (nat_of_ascii c) as n. intros n.
  destruct (Nat.leb_spec 97 n), (Nat.leb_spec n 122), (Nat.leb_spec 48 n), (Nat.leb_spec n 57),
    (Nat.leb_spec 9 n), (Nat.leb_spec n 13), (Nat.leb_spec 28 n), (Nat.leb_spec n 32);
    simpl; intros; try reflexivity; try discriminate; lia.
Qed.


Lemma after_word prev (w : list ascii) : word_lit w -> word_at (after prev w) = true.
Proof.
  intros [Hne Hw]. destruct (exists_last Hne) as [w' [c E]]. rewrite E, after_snoc. simpl.
  apply Hw. rewrite E. apply in_or_app. right. left. reflexivity.
Qed.

Lemma word_pat_spec (w L : list ascii) :
  word_lit w -> (forall c, In c L -> norm_char c) ->
  (search_from (Bound :: map Chr w ++ [Bound]) None L = true <-> whole_word_in w L).
Proof.
  intros Hw HL. rewrite search_from_spec. unfold whole_word_in. split.
  - intros [p [q [E H]]]. simpl in H. apply andb_true_iff in H. destruct H as [B1 H].
    apply match_at_lit in H. destruct H as [q' [-> H]]. simpl in H.
    rewrite andb_true_r in H. rewrite after_word in H by exact Hw.
    destruct Hw as [Hne Hw']. destruct w as [|c w]; [congruence|]. simpl in B1.
    rewrite (Hw' c (or_introl eq_refl)) in B1.
    exists p, q'. split; [exact E|]. split.
    + apply (before_nonword L p _ HL E). destruct (word_at (after None p)); [discriminate|reflexivity].
    + apply (after_nonword L (p ++ c :: w) q' HL). { rewrite E, <- app_assoc. reflexivity. }
      destruct (word_at (hd_error q')); [discriminate|reflexivity].
  - intros [p [q [E [Hp Hq]]]]. exists p, (w ++ q). split; [exact E|].
    simpl. apply andb_true_iff. split.
    + apply (before_nonword L p _ HL E) in Hp. rewrite Hp.
      destruct Hw as [Hne Hw']. destruct w as [|c w]; [congruence|]. simpl.
      rewrite (Hw' c (or_introl eq_refl)). reflexivity.
    + apply match_at_lit. exists q. split; [reflexivity|]. simpl. rewrite andb_true_r.
      rewrite after_word by exact Hw.
      apply (after_nonword L (p ++ w) q HL) in Hq; [|rewrite E, app_assoc; reflexivity].
      rewrite Hq. reflexivity.
Qed.

Lemma id_pat_spec (m L : list ascii) :
  word_lit m -> (forall c, In c L -> norm_char c) ->
  (search_from (Bound :: map Chr m ++ SpStar :: map Chr (list_ascii_of_string "id") ++ [Bound]) None L = true ->
   whole_word_in (m ++ list_ascii_of_string "id") L \/ whole_word_in (list_ascii_of_string "id") L) /\
  (whole_word_in (m ++ list_ascii_of_string "id") L ->
   search_from (Bound :: map Chr m ++ SpStar :: map Chr (list_ascii_of_string "id") ++ [Bound]) None L = true).
Proof.
  intros Hm HL. assert (Hid : word_lit (list_ascii_of_string "id")).
  { split; [discriminate|]. intros c [<-|[<-|[]]]; reflexivity. }
  rewrite search_from_spec. unfold whole_word_in. split.
  - intros [p [q [E H]]]. simpl in H. apply andb_true_iff in H. destruct H as [B1 H].
    apply match_at_lit in H. destruct H as [q1 [-> H]].
    apply match_at_star in H. destruct H as [sp [q2 [-> [Hsp H]]]].
    apply (match_at_lit (list_ascii_of_string "id") [Bound]) in H. destruct H as [q3 [-> H]]. simpl in H.
    rewrite andb_true_r in H.
    assert (Hq3 : q3 = [] \/ exists q', q3 = " "%char :: q').
    { apply (after_nonword L (p ++ m ++ sp ++ list_ascii_of_string "id") q3 HL).
      { rewrite E, <- !app_assoc. reflexivity. }
      destruct (word_at (hd_error q3)); [simpl in H; discriminate|reflexivity]. }
    destruct (list_eq_dec ascii_dec sp []) as [->|Hne].
    + left. exists p, q3. split; [rewrite E, <- app_assoc; reflexivity|]. split; [|exact Hq3].
      apply (before_nonword L p _ HL E).
      destruct Hm as [Hne Hm']. destruct m as [|c m]; [congruence|]. simpl in B1.
      rewrite (Hm' c (or_introl eq_refl)) in B1. destruct (word_at (after None p)); [discriminate|reflexivity].
    + right. destruct (exists_last Hne) as [sp' [c Esp]].
      exists (p ++ m ++ sp), q3. split; [rewrite E, <- !app_assoc; reflexivity|]. split; [|exact Hq3].
      right. exists (p ++ m ++ sp'). rewrite Esp, <- !app_assoc. f_equal. f_equal. f_equal. f_equal.
      assert (Hc : norm_char c).
      { apply HL. rewrite E, Esp. apply in_or_app. right. apply in_or_app. right.
        apply in_or_app. left. apply in_or_app. right. left. reflexivity. }
      assert (Hsc : is_space c = true) by (apply Hsp; rewrite Esp; apply in_or_app; right; left; reflexivity).
      destruct Hc as [Hc| ->]; [|reflexivity].
      exfalso. rewrite (lower_alnum_not_space c Hc) in Hsc. discriminate.
  - intros [p [q [E [Hp Hq]]]]. exists p, (m ++ list_ascii_of_string "id" ++ q).
    split; [rewrite E, <- app_assoc; reflexivity|].
    simpl. apply andb_true_iff. split.
    + apply (before_nonword L p _ HL E) in Hp. rewrite Hp.
      destruct Hm as [Hne Hm']. destruct m as [|c m]; [congruence|]. simpl.
      rewrite (Hm' c (or_introl eq_refl)). reflexivity.
    + apply match_at_lit. exists (list_ascii_of_string "id" ++ q). split; [reflexivity|].
      apply match_at_star. exists [], (list_ascii_of_string "id" ++ q).
      split; [reflexivity|]. split; [intros _ []|].
      assert (Hq' : word_at (hd_error q) = false).
      { apply (after_nonword L (p ++ m ++ list_ascii_of_string "id") q HL);
          [rewrite E, <- !app_assoc; reflexivity|exact Hq]. }
      apply (match_at_lit (list_ascii_of_string "id") [Bound]). exists q. split; [reflexivity|].
      cbn [match_at]. rewrite after_word by exact Hid. rewrite Hq'. reflexivity.
Qed.

Lemma normalize_text_chars col c :
  In c (list_ascii_of_string (normalize_text col)) -> norm_char c.
Proof. apply (proj2 (normalize_text_form_aux col)). Qed.

Lemma excluded_words_lit w : In w excluded_words ->
  word_lit (list_ascii_of_string w).
Proof.
  intros H. split.
  - simpl in H. intuition (subst; discriminate).
  - simpl in H. intros c Hc. intuition (subst; simpl in Hc; intuition (subst; reflexivity)).
Qed.

Lemma list_ascii_of_string_app (s1 s2 : string) :
  list_ascii_of_string (s1 ++ s2) = list_ascii_of_string s1 ++ list_ascii_of_string s2.
Proof. induction s1 as [|a s1 IH]; simpl; [reflexivity|]. rewrite IH. reflexivity. Qed.

Lemma is_excluded_field_spec (col : string) :
  is_excluded_field col = true <->
  exists w, In w excluded_words /\
    whole_word_in (list_ascii_of_string w) (list_ascii_of_string (normalize_text col)).
Proof.
  pose proof (normalize_text_chars col) as HL.
  unfold is_excluded_field. rewrite existsb_exists.
  generalize dependent (normalize_text col). intros c HL.
  unfold re_search. generalize dependent (list_ascii_of_string c). intros L HL.
  assert (Wl : forall w, In w excluded_words -> word_lit (list_ascii_of_string w)) by apply excluded_words_lit.
  assert (Wp : forall w, In w excluded_words ->
            (search_from (word_pat w) None L = true <-> whole_word_in (list_ascii_of_string w) L)).
  { intros w Hw. apply word_pat_spec; auto. }
  assert (Ip : forall m, word_lit (list_ascii_of_string m) ->
            (search_from (id_pat m) None L = true ->
             whole_word_in (list_ascii_of_string (m ++ "id")) L \/ whole_word_in (list_ascii_of_string "id") L) /\
            (whole_word_in (list_ascii_of_string (m ++ "id")) L -> search_from (id_pat m) None L = true)).
  { intros m Hm. unfold id_pat, lit. rewrite list_ascii_of_string_app. cbn [app]. apply id_pat_spec; auto. }
  split.
  - intros [pat [Hin Hs]]. unfold EXCLUDE_PATTERNS in Hin.
    destruct Hin as [<-|[<-|[<-|[<-|[<-|[<-|[<-|[<-|[<-|[<-|[<-|[<-|[<-|[]]]]]]]]]]]]]];
    let word_case w := exists w; split; [simpl; tauto|apply (proj1 (Wp w ltac:(simpl; tauto))); exact Hs] in
    let id_case m :=
      destruct (proj1 (Ip m ltac:(split; [discriminate|intros ch Hch; simpl in Hch; intuition (subst; reflexivity)])) Hs)
        as [H|H]; eexists; (split; [|exact H]); simpl; tauto in
    first [word_case "id"%string | word_case "code"%string | word_case "sku"%string
          | word_case "hsn"%string | word_case "sac"%string | word_case "gl"%string
          | word_case "account"%string | word_case "asset"%string | word_case "serial"%string
          | id_case "material"%string | id_case "item"%string | id_case "vendor"%string
          | id_case "supplier"%string].
  - intros [w [Hw Hwh]].
    assert (Hw' := Hw). simpl in Hw'.
    destruct Hw' as [<-|[<-|[<-|[<-|[<-|[<-|[<-|[<-|[<-|[<-|[<-|[<-|[<-|[]]]]]]]]]]]]]];
    try (eexists; split; [|apply (Wp _ Hw); exact Hwh]; simpl; tauto).
    + exists (id_pat "material"). split; [simpl; tauto|].
      apply (proj2 (Ip "material"%string ltac:(split; [discriminate|intros ch Hch; simpl in Hch; intuition (subst; reflexivity)]))).
      exact Hwh.
    + exists (id_pat "item"). split; [simpl; tauto|].
      apply (proj2 (Ip "item"%string ltac:(split; [discriminate|intros ch Hch; simpl in Hch; intuition (subst; reflexivity)]))).
      exact Hwh.
    + exists (id_pat "vendor"). split; [simpl; tauto|].
      apply (proj2 (Ip "vendor"%string ltac:(split; [discriminate|intros ch Hch; simpl in Hch; intuition (subst; reflexivity)]))).
      exact Hwh.
    + exists (id_pat "supplier"). split; [simpl; tauto|].
      apply (proj2 (Ip "supplier"%string ltac:(split; [discriminate|intros ch Hch; simpl in Hch; intuition (subst; reflexivity)]))).
      exact Hwh.
Qed.

(** [harmonizable_fields] keeps a column exactly when no excluded word (id,
    code, sku, hsn, sac, materialid, itemid, vendorid, supplierid, gl,
    account, asset, serial) occurs as a whole word in its normalized name;
    "material id" also counts, through its word "id". *)
Theorem harmonizable_fields_spec (cols : list string) (c : string) :
  In c (harmonizable_fields cols) <->
  In c cols /\
  ~ (exists w, In w excluded_words /\
       whole_word_in (list_ascii_of_string w) (list_ascii_of_string (normalize_text c))).
Proof.
  unfold harmonizable_fields. rewrite filter_In, <- is_excluded_field_spec.
  destruct (is_excluded_field c); simpl; intuition congruence.
Qed.

Lemma date_eqb_iff d1 d2 : date_eqb d1 d2 = true <-> d1 = d2.
Proof.
  destruct d1, d2; simpl; split; intros H; try discriminate; try reflexivity; try congruence.
  - apply String.eqb_eq in H. subst. reflexivity.
  - injection H as ->. apply String.eqb_refl.
Qed.

Lemma pair_eqb_iff p q : pair_eqb p q = true <-> p = q.
Proof.
  destruct p as [s1 d1], q as [s2 d2]. unfold pair_eqb. simpl.
  rewrite andb_true_iff, String.eqb_eq, date_eqb_iff. split; [intros [-> ->]; reflexivity|intros [= -> ->]; auto].
Qed.

Lemma build_rate_map_eq api tgt pairs :
  build_rate_map api tgt pairs =
  rev (map (fun p => (p, if String.eqb (fst p) tgt then Some 1%Q
                         else frankfurter_rate api (fst p) tgt (snd p))) pairs).
Proof.
  unfold build_rate_map. rewrite <- (app_nil_r (rev _)). generalize (@nil ((string * date_val) * option Q)).
  induction pairs as [|p pairs IH]; intros m; simpl; [reflexivity|].
  rewrite IH, <- app_assoc. reflexivity.
Qed.

Lemma rate_get_graph (f : string * date_val -> option Q) l k :
  In k l -> rate_get (map (fun p => (p, f p)) l) k = f k.
Proof.
  induction l as [|p l IH]; simpl; [intros []|]. intros Hk.
  destruct (pair_eqb p k) eqn:E.
  - apply pair_eqb_iff in E. subst. reflexivity.
  - apply IH. destruct Hk as [<-|Hk]; [|exact Hk]. rewrite (proj2 (pair_eqb_iff p p) eq_refl) in E. discriminate.
Qed.

Lemma nth_error_combine {A B} (l1 : list A) (l2 : list B) i :
  nth_error (combine l1 l2) i =
  match nth_error l1 i, nth_error l2 i with Some a, Some b => Some (a, b) | _, _ => None end.
Proof.
  revert l2 i. induction l1 as [|a l1 IH]; intros l2 i; simpl.
  - destruct i; reflexivity.
  - destruct l2 as [|b l2]; destruct i; simpl; try reflexivity.
    + destruct (nth_error l1 i); reflexivity.
    + apply IH.
Qed.

(** The currency, date and rate of row [i], as the loop over [pairs] and the
    dict lookup give them. *)
Lemma convert_currency_row_aux api (amounts ccys : list (option string)) target dates i a c :
  List.length amounts = List.length ccys ->
  (forall l, dates = Some l -> List.length l = List.length ccys) ->
  nth_error amounts i = Some a -> nth_error ccys i = Some c ->
  let src := upper_strip (match c with Some x => x | None => target end) in
  let tgt := upper_strip target in
  let d := match dates with Some l => nth i l DNone | None => DNone end in
  let r := if String.eqb src tgt then Some 1%Q else frankfurter_rate api src tgt d in
  nth_error (convert_currency_df api amounts ccys target dates) i =
  Some {| ccy_source := src; ccy_target := tgt; fx_rate_used := r;
          fx_missing := match r with Some _ => false | None => true end;
          spend_converted := match clean_amount_one a, r with
                             | Some x, Some y => Some (x * y)%Q | _, _ => None end |}.
Proof.
  intros Hla Hld Ha Hc src tgt d r.
  assert (Hi : i < List.length ccys) by (apply nth_error_Some; congruence).
  assert (Hd : nth_error (match dates with Some l => l | None => List.repeat DNone (List.length ccys) end) i = Some d).
  { subst d. destruct dates as [l|].
    - apply nth_error_nth'. rewrite (Hld l eq_refl). exact Hi.
    - rewrite nth_error_repeat by exact Hi. reflexivity. }
  unfold convert_currency_df. fold tgt.
  set (srcs := map (fun o => upper_strip (match o with Some c => c | None => target end)) ccys).
  set (ds := match dates with Some l => l | None => List.repeat DNone (List.length ccys) end) in *.
  assert (Hs : nth_error srcs i = Some src) by (unfold srcs; rewrite nth_error_map, Hc; reflexivity).
  assert (Hp : nth_error (combine srcs ds) i = Some (src, d)) by (rewrite nth_error_combine, Hs, Hd; reflexivity).
  unfold clean_amount.
  rewrite nth_error_map, !nth_error_combine, Hs, nth_error_map, Ha, nth_error_map, Hp. simpl.
  rewrite build_rate_map_eq, <- map_rev, rate_get_graph.
  - reflexivity.
  - rewrite <- in_rev. apply (dedup_by_In pair_eqb pair_eqb_iff).
    apply nth_error_In in Hp. exact Hp.
Qed.

(** Row [i] of [convert_currency_df] carries the upper-cased, stripped source
    currency (the target when missing) and target. Its rate is 1 when the
    two are equal and otherwise the Frankfurter rate for its own date. It is
    marked missing exactly when that rate is missing. Its converted spend is
    the cleaned amount times the rate, or NaN when either is NaN. *)
Theorem convert_currency_row api (amounts ccys : list (option string)) target dates i a c :
  List.length amounts = List.length ccys ->
  (forall l, dates = Some l -> List.length l = List.length ccys) ->
  nth_error amounts i = Some a -> nth_error ccys i = Some c ->
  let src := upper_strip (match c with Some x => x | None => target end) in
  let tgt := upper_strip target in
  let d := match dates with Some l => nth i l DNone | None => DNone end in
  let r := if String.eqb src tgt then Some 1%Q else frankfurter_rate api src tgt d in
  nth_error (convert_currency_df api amounts ccys target dates) i =
  Some {| ccy_source := src; ccy_target := tgt; fx_rate_used := r;
          fx_missing := match r with Some _ => false | None => true end;
          spend_converted := match clean_amount_one a, r with
                             | Some x, Some y => Some (x * y)%Q | _, _ => None end |}.
Proof. exact (convert_currency_row_aux api amounts ccys target dates i a c). Qed.

(** A row with no currency, or with the target currency up to case and
    surrounding spaces, gets rate 1, is not marked missing, and keeps its
    cleaned amount as converted spend. *)
Theorem convert_currency_same api (amounts ccys : list (option string)) target dates i a c :
  List.length amounts = List.length ccys ->
  (forall l, dates = Some l -> List.length l = List.length ccys) ->
  nth_error amounts i = Some a -> nth_error ccys i = Some c ->
  (c = None \/ exists x, c = Some x /\ upper_strip x = upper_strip target) ->
  exists row, nth_error (convert_currency_df api amounts ccys target dates) i = Some row /\
    fx_rate_used row = Some 1%Q /\ fx_missing row = false /\
    match spend_converted row, clean_amount_one a with
    | Some v, Some x => (v == x)%Q
    | None, None => True
    | _, _ => False
    end.
Proof.
  intros Hla Hld Ha Hc Hsame.
  pose proof (convert_currency_row_aux api amounts ccys target dates i a c Hla Hld Ha Hc) as E. simpl in E.
  assert (Hs : String.eqb (upper_strip (match c with Some x => x | None => target end)) (upper_strip target) = true).
  { apply String.eqb_eq. destruct Hsame as [->|[x [-> Hx]]]; [reflexivity|exact Hx]. }
  rewrite Hs in E. eexists. split; [exact E|]. simpl. split; [reflexivity|]. split; [reflexivity|].
  destruct (clean_amount_one a); [apply Qmult_1_r|exact I].
Qed.


Lemma convert_currency_row_witness :
  List.length [Some "100"; Some "1,000"]%string = List.length [Some " usd"; None]%string /\
  nth_error (convert_currency_df api_fixed [Some "100"; Some "1,000"]%string [Some " usd"; None]%string
               "inr" None) 0 =
  Some {| ccy_source := "USD"; ccy_target := "INR"; fx_rate_used := Some (83 # 1)%Q;
          fx_missing := false; spend_converted := Some (100 * (83 # 1))%Q |}.
Proof.
  split; [reflexivity|].
  exact (convert_currency_row api_fixed [Some "100"; Some "1,000"]%string [Some " usd"; None]%string
           "inr" None 0 (Some "100"%string) (Some " usd"%string) eq_refl
           ltac:(intros l Hl; discriminate) eq_refl eq_refl).
Defined.

Lemma convert_currency_same_witness :
  exists row, nth_error (convert_currency_df api_fixed [Some "100"; Some "1,000"]%string
                          [Some " usd"; None]%string "inr" None) 1 = Some row /\
    fx_rate_used row = Some 1%Q /\ fx_missing row = false /\
    match spend_converted row, clean_amount_one (Some "1,000"%string) with
    | Some v, Some x => (v == x)%Q
    | None, None => True
    | _, _ => False
    end.
Proof.
  apply (convert_currency_same api_fixed _ _ "inr" None 1 (Some "1,000"%string) None);
    [reflexivity|intros l Hl; discriminate|reflexivity|reflexivity|left; reflexivity].
Defined.

Lemma clean_amount_decimal_witness :
  numeric_chars "USD -1,250.75"%string =
    ["-"%char] ++ ["1"; "2"; "5"; "0"]%char ++ ["."%char] ++ ["7"; "5"]%char /\
  clean_amount_one (Some "USD -1,250.75"%string) =
    Some (num_value true ["1"; "2"; "5"; "0"]%char ["7"; "5"]%char).
Proof.
  split; [vm_compute; reflexivity|].
  apply (clean_amount_decimal _ ["-"%char] _ ["."%char] _); [vm_compute; reflexivity|right; reflexivity
    |right; reflexivity|intros c Hc; simpl in Hc; intuition (subst; reflexivity)
    |intros c Hc; simpl in Hc; intuition (subst; reflexivity)|discriminate|simpl; lia].
Defined.

Lemma normalize_description_single_spaced_witness :
  In "Steel pipe 10mm"%string (normalize_description [Some "  Steel   pipe"; Some "Steel pipe 10mm  "]%string) /\
  single_spaced (list_ascii_of_string "Steel pipe 10mm"%string).
Proof.
  assert (H : In "Steel pipe 10mm"%string
                 (normalize_description [Some "  Steel   pipe"; Some "Steel pipe 10mm  "]%string))
    by (vm_compute; right; left; reflexivity).
  split; [exact H|]. exact (normalize_description_single_spaced _ _ H).
Defined.

End UtilsFacts.

(** ** More facts about [harmonize_names] *)
Module HarmonizeExtra.
Import Harmonize HarmonizeFacts.

(** The canonical value [harmonize_names] gives a row is one of the raw input
    values, never a new spelling, and it belongs to the row's group: its own
    [canon_norm] is the row's. *)
Theorem canonical_is_raw (series : list (option string)) (threshold : Q) (min_len max_uniques : Z) i r :
  nth_error (h_raws series) i = Some r ->
  exists c, nth_error (canonical (harmonize_names series threshold min_len max_uniques)) i = Some c /\
    In c (h_raws series) /\
    h_canon_norm series threshold min_len max_uniques (normalize_text c) =
    h_canon_norm series threshold min_len max_uniques (normalize_text r).
Proof.
  intros Hr. rewrite (canonical_nth series threshold min_len max_uniques i r Hr).
  eexists. split; [reflexivity|]. apply display_canon. apply nth_error_In with i. exact Hr.
Qed.

Lemma mapping_leb_flip p q : mapping_leb p q = false -> mapping_leb q p = true.
Proof.
  destruct p as [[r1 n1] c1], q as [[r2 n2] c2]. unfold mapping_leb.
  rewrite (String.compare_antisym c2 c1), (String.compare_antisym r2 r1).
  destruct (String.compare c1 c2); simpl; try discriminate; try reflexivity.
  destruct (String.compare r1 r2); simpl; try discriminate; reflexivity.
Qed.

(** The mapping table has no duplicate rows and is sorted by (canonical,
    raw). Its rows are exactly the (raw, canon_norm, canonical) triples of
    the input rows. *)
Theorem mapping_table (series : list (option string)) (threshold : Q) (min_len max_uniques : Z) :
  let H := harmonize_names series threshold min_len max_uniques in
  NoDup (mapping H) /\
  Sorted (fun p q => mapping_leb p q = true) (mapping H) /\
  (forall r n c, In (r, n, c) (mapping H) <->
     exists i, nth_error (h_raws series) i = Some r /\
       n = h_canon_norm series threshold min_len max_uniques (normalize_text r) /\
       nth_error (canonical H) i = Some c).
Proof.
  intros H. subst H. split; [|split].
  - rewrite mapping_eq. eapply Permutation_NoDup; [symmetry; apply sort_by_perm|].
    apply (dedup_by_NoDup triple_eqb triple_eqb_iff).
  - apply sort_by_sorted; [auto|apply mapping_leb_flip].
  - intros r n c. rewrite mapping_eq. split.
    + intros Hin. apply (Permutation_in _ (sort_by_perm _ _)) in Hin.
      rewrite (dedup_by_In triple_eqb triple_eqb_iff) in Hin.
      apply in_map_iff in Hin as [r' [E Hr']]. injection E as <- <- <-.
      apply In_nth_error in Hr' as [i Hi]. exists i. split; [exact Hi|]. split; [reflexivity|].
      apply canonical_nth. exact Hi.
    + intros [i [Hi [-> Hc]]]. rewrite (canonical_nth _ _ _ _ i r Hi) in Hc. injection Hc as <-.
      apply (Permutation_in _ (Permutation_sym (sort_by_perm _ _))).
      rewrite (dedup_by_In triple_eqb triple_eqb_iff). apply in_map_iff.
      exists r. split; [reflexivity|]. apply nth_error_In with i. exact Hi.
Qed.

Lemma short_cluster (series : list (option string)) (threshold : Q) (min_len max_uniques : Z) cl x :
  (Z.of_nat (String.length x) < min_len)%Z ->
  In cl (h_clusters series threshold min_len max_uniques) -> In x cl -> cl = [x].
Proof.
  intros Hlen Hcl Hx.
  destruct (h_cluster_shape series threshold min_len max_uniques cl Hcl) as [h [t [-> [_ Ht]]]].
  assert (Short : forall u v, matches threshold min_len u v = true -> (min_len <= Z.of_nat (String.length u))%Z /\
                                (min_len <= Z.of_nat (String.length v))%Z).
  { intros u v E. unfold matches in E. apply andb_prop in E as [E _]. apply andb_prop in E as [E1 E2].
    apply Z.leb_le in E1, E2. auto. }
  destruct Hx as [<-|Hx].
  - destruct t as [|v t]; [reflexivity|]. exfalso.
    destruct (Ht v (or_introl eq_refl)) as [_ M]. apply Short in M. lia.
  - exfalso. destruct (Ht x Hx) as [_ M]. apply Short in M. lia.
Qed.

(** A normalized value shorter than [min_len] is never merged: its
    [canon_norm] is itself, and no other value gets it as [canon_norm]. *)
Theorem short_value_unmerged (series : list (option string)) (threshold : Q) (min_len max_uniques : Z) x :
  (Z.of_nat (String.length x) < min_len)%Z ->
  h_canon_norm series threshold min_len max_uniques x = x /\
  (forall y, h_canon_norm series threshold min_len max_uniques y = x -> y = x).
Proof.
  intros Hlen. split.
  - destruct (canon_norm_cases series threshold min_len max_uniques x) as [[cl [Hcl [Hx E]]]|[_ E]]; [|exact E].
    rewrite E, (short_cluster series threshold min_len max_uniques cl x Hlen Hcl Hx). reflexivity.
  - intros y Hy.
    destruct (canon_norm_cases series threshold min_len max_uniques y) as [[cl [Hcl [Hy' E]]]|[_ E]];
      [|rewrite <- Hy, E; reflexivity].
    assert (Hx : In x cl).
    { rewrite <- Hy, E. destruct (h_cluster_shape series threshold min_len max_uniques cl Hcl) as [h [t [-> _]]].
      apply cluster_max_In. }
    rewrite (short_cluster series threshold min_len max_uniques cl x Hlen Hcl Hx) in Hy'.
    destruct Hy' as [<-|[]]. reflexivity.
Qed.

Lemma canonical_is_raw_witness :
  nth_error (h_raws [Some "Acme Ltd"; Some "ACME LTD."; Some "Acme Ltd"]%string) 1 = Some "ACME LTD."%string /\
  exists c, nth_error (canonical (harmonize_names [Some "Acme Ltd"; Some "ACME LTD."; Some "Acme Ltd"]%string
                                   (92 # 100) 3 3000)) 1 = Some c /\
    In c (h_raws [Some "Acme Ltd"; Some "ACME LTD."; Some "Acme Ltd"]%string) /\
    h_canon_norm [Some "Acme Ltd"; Some "ACME LTD."; Some "Acme Ltd"]%string (92 # 100) 3 3000 (normalize_text c) =
    h_canon_norm [Some "Acme Ltd"; Some "ACME LTD."; Some "Acme Ltd"]%string (92 # 100) 3 3000
      (normalize_text "ACME LTD."%string).
Proof.
  split; [reflexivity|]. apply canonical_is_raw. reflexivity.
Defined.

Lemma short_value_unmerged_witness :
  (Z.of_nat (String.length "ab"%string) < 3)%Z /\
  h_canon_norm [Some "ab"; Some "abc"; Some "ab"]%string 0 3 3000 "ab"%string = "ab"%string /\
  (forall y, h_canon_norm [Some "ab"; Some "abc"; Some "ab"]%string 0 3 3000 y = "ab"%string -> y = "ab"%string).
Proof.
  split; [reflexivity|]. apply short_value_unmerged. reflexivity.
Defined.

End HarmonizeExtra.
